(** * The resilient image-generation wrapper (aiUtils: [generateProductImage])

    A shallow embedding of the wrapper that calls the image-generation API
    behind a one-hour cache, a minimum-delay gate and a bounded retry loop
    with exponential backoff, together with the properties claimed of it.

    Conventions of the embedding.
    - Times are milliseconds, integers ([Z]), as [Date.now()] gives them.
    - A prompt is a [string] whose characters stand for UTF-16 code units
      below 256.
    - [maxRetries] is declared [number] and is checked nowhere: it is a
      [Number], a finite value (a rational, as every finite double is),
      [Infinity], [-Infinity] or [NaN].  The other numbers of the wrapper
      are integers and are taken as exact: the counter [attempt], which a
      double holds exactly up to 2^53, and the delay [2 ^ attempt * 1000],
      which a double holds exactly up to attempt 1014.
    - The clock is ideal: a sleep lasts the delay asked for.  The timer of
      the source does so for the delays from 1 ms to 2^31 - 1 ms, and what
      is stated of the time that a sleep takes is stated within that
      range.
    - A call whose [maxRetries] is [Infinity], or above 2^53 where the
      counter stops counting, does not end while the API keeps failing.
      The environment says for how many attempts such a call is followed
      ([horizon]); a call that has not ended by then has no completion
      ([None]).
    - The module state ([lastApiCall], [imageCache]) and the clock are the
      fields of a [World] that every operation threads through.  A [World]
      also carries a ghost [trace] of the operations performed, which the
      source does not keep; it is what the statements about "how many
      outbound calls" or "which sleeps" talk about.

    The development then follows the wrapper to its neighbours: the cache
    administration, the route that calls the wrapper, and the orders
    controller with the error handler.
    - The database is an oracle: each query is answered with a document,
      [null] or an error, given the queries made so far, which a handler
      records in a log.
    - The body of a request is taken as parsed: options are values of the
      option types of the wrapper, ids are strings.
    - Prices, quantities and totals are values of an abstract arithmetic
      ([Arithmetic]), so that nothing is assumed of JavaScript numbers. *)

From Stdlib Require Import ZArith QArith Qround Ascii String DecimalString.
From stdpp Require Import gmap strings list fin_maps.

Local Open Scope string_scope.
Local Open Scope Z_scope.

(** ** Option types of the source *)

Inductive Model := dall_e_3 | dall_e_2.
Inductive Size := s256x256 | s512x512 | s1024x1024 | s1792x1024 | s1024x1792.
Inductive Quality := standard | hd.
Inductive Style := vivid | natural.

Definition Model_str (m : Model) : string :=
  match m with dall_e_3 => "dall-e-3" | dall_e_2 => "dall-e-2" end.

Definition Size_str (s : Size) : string :=
  match s with
  | s256x256 => "256x256"
  | s512x512 => "512x512"
  | s1024x1024 => "1024x1024"
  | s1792x1024 => "1792x1024"
  | s1024x1792 => "1024x1792"
  end.

Definition Quality_str (q : Quality) : string :=
  match q with standard => "standard" | hd => "hd" end.

Definition Style_str (s : Style) : string :=
  match s with vivid => "vivid" | natural => "natural" end.

#[global] Instance Model_eq_dec : EqDecision Model.
Proof. solve_decision. Defined.

(** ** Numbers *)

(** A JavaScript [number], as [maxRetries] may be given. *)
Inductive Number :=
  | Real (q : Q)
  | PosInfinity
  | NegInfinity
  | NaN.

(** The number whose value is an integer. *)
Definition whole (z : Z) : Number := Real (inject_Z z).

(** [attempt <= n] for an integer [attempt]: false when [n] is [NaN]. *)
Definition Number_le (attempt : Z) (n : Number) : bool :=
  match n with
  | Real q => Qle_bool (inject_Z attempt) q
  | PosInfinity => true
  | NegInfinity | NaN => false
  end.

(** [attempt === n] for an integer [attempt]. *)
Definition Number_eq (attempt : Z) (n : Number) : bool :=
  match n with
  | Real q => Qeq_bool (inject_Z attempt) q
  | PosInfinity | NegInfinity | NaN => false
  end.

(** [n <= 0]. *)
Definition Number_nonpositive (n : Number) : bool :=
  match n with
  | Real q => Qle_bool q (inject_Z 0)
  | NegInfinity => true
  | PosInfinity | NaN => false
  end.

(** [interface ImageGenerationOptions]: every field is optional; [None] is
    the field left [undefined]. *)
Record ImageGenerationOptions := {
  model : option Model;
  size : option Size;
  quality : option Quality;
  style : option Style;
  maxRetries : option Number;
  useCache : option bool
}.

(** [interface ImageGenerationResult]. *)
Record ImageGenerationResult := {
  imageUrl : string;
  revisedPrompt : option string;
  fromCache : bool;
  attempts : Z
}.

(** An [Error] thrown by the wrapper: [new Error(message, {cause: {status}})]. *)
Record WrapperError := {
  message : string;
  cause_status : Z
}.

(** The destructuring defaults of the source: [x = d] takes [d] exactly when
    the field is [undefined]. *)
Definition model_of (o : ImageGenerationOptions) : Model := default dall_e_3 (model o).
Definition size_of (o : ImageGenerationOptions) : Size := default s1024x1024 (size o).
Definition quality_of (o : ImageGenerationOptions) : Quality := default standard (quality o).
Definition style_of (o : ImageGenerationOptions) : Style := default vivid (style o).
Definition maxRetries_of (o : ImageGenerationOptions) : Number :=
  default (whole 3) (maxRetries o).
Definition useCache_of (o : ImageGenerationOptions) : bool := default true (useCache o).

(** ** Strings: [toLowerCase], [replace(/[^a-z0-9]/g, '_')], [substring(0, 50)] *)

Definition code (c : ascii) : N := N_of_ascii c.

(** [String.prototype.toLowerCase] on one code unit below 256: the Latin
    capitals A..Z and the Latin-1 capitals (192..222 but the sign 215) move
    up by 32; every other unit is kept. *)
Definition lower_char (c : ascii) : ascii :=
  let n := code c in
  if ((65 <=? n) && (n <=? 90))%N then ascii_of_N (n + 32)
  else if ((192 <=? n) && (n <=? 222) && negb (n =? 215))%N then ascii_of_N (n + 32)
  else c.

Fixpoint map_units (f : ascii -> ascii) (s : string) : string :=
  match s with
  | EmptyString => EmptyString
  | String c s' => String (f c) (map_units f s')
  end.

Definition toLowerCase (s : string) : string := map_units lower_char s.

(** The character class [[a-z0-9]]. *)
Definition is_a_z_0_9 (c : ascii) : bool :=
  let n := code c in
  (((97 <=? n) && (n <=? 122)) || ((48 <=? n) && (n <=? 57)))%N.

(** [s.replace(/[^a-z0-9]/g, '_')]. *)
Definition replace_non_alnum (s : string) : string :=
  map_units (fun c => if is_a_z_0_9 c then c else "_"%char) s.

(** [s.substring(start, start + len)] for indices within [nat]. *)
Definition substring (start len : nat) (s : string) : string :=
  Stdlib.Strings.String.substring start len s.

(** [createCacheKey(prompt, options)]. *)
Definition createCacheKey (prompt : string) (options : ImageGenerationOptions) : string :=
  "image_" ++ Model_str (model_of options) ++ "_" ++ Size_str (size_of options)
    ++ "_" ++ Quality_str (quality_of options) ++ "_" ++ Style_str (style_of options)
    ++ "_" ++ substring 0 50 (replace_non_alnum (toLowerCase prompt)).

(** The decimal numeral of an integer, with a minus sign when negative. *)
Definition decimal (z : Z) : string := NilZero.string_of_int (Z.to_int z).

(** JavaScript truthiness of a string: every string but the empty one. *)
Definition truthy (s : string) : bool := negb (String.eqb s "").

(** [a || b] where [a] may be [undefined] and [b] is a string. *)
Definition or_else (a : option string) (b : string) : string :=
  match a with
  | Some s => if truthy s then s else b
  | None => b
  end.

(** ** The outside world: credential and image API *)

(** The JSON body posted to the API; [quality] and [style] are present for
    ['dall-e-3'] only. *)
Record RequestBody := {
  body_model : Model;
  body_prompt : string;
  body_n : Z;
  body_size : Size;
  body_response_format : string;
  body_quality : option Quality;
  body_style : option Style
}.

(** What the [catch] clause reads of a caught error:
    [error.response?.data?.error?.message] and [error.message]. *)
Record AxiosError := {
  response_error_message : option string;
  error_message : string
}.

(** How one pass through the [try] block ends once the request is sent:
    the response yields [data[0].url] and [data[0].revised_prompt], or an
    exception reaches the [catch] clause (network failure, error status,
    the 60 s timeout, a response without [data[0]]). *)
Inductive AxiosOutcome :=
  | Resolved (url : string) (revised_prompt : option string)
  | Rejected (e : AxiosError).

Record AxiosReply := {
  outcome : AxiosOutcome;
  latency : N
}.

(** [OPENAI_API_KEY] is read once from the process environment; the API
    answers the [i]-th request of the process, sent at a given time, as it
    pleases.  [numeral] is the text that the JavaScript engine makes of a
    finite number in a template; it is asked only about the numbers that
    are not whole numbers of magnitude below 2^53, whose text is their
    decimal numeral.  [horizon] is the number of attempts for which a call
    that need not end is followed. *)
Record Env := {
  OPENAI_API_KEY : option string;
  axios_post : nat -> Z -> RequestBody -> AxiosReply;
  numeral : Q -> string;
  horizon : nat
}.

(** Whether a finite number is a whole number of magnitude below 2^53. *)
Definition safe_integer (q : Q) : bool :=
  Qeq_bool q (inject_Z (Qfloor q)) && (Z.abs (Qfloor q) <? 2 ^ 53).

(** Template interpolation of a number: [`${n}`]. *)
Definition Number_toString (env : Env) (n : Number) : string :=
  match n with
  | Real q => if safe_integer q then decimal (Qfloor q) else numeral env q
  | PosInfinity => "Infinity"
  | NegInfinity => "-Infinity"
  | NaN => "NaN"
  end.

(** ** The cache store *)

Definition stdTTL : Z := 3600.

Record CacheEntry := {
  payload : ImageGenerationResult;
  insertedAt : Z
}.

(** Modelled from the spec: the store behind [imageCache] is the
    third-party [node-cache] package, which is not part of the sources.  An
    entry is a payload with its insertion time; it expires [stdTTL] seconds
    after insertion, which is checked when the key is read: an expired
    entry is not returned.  The physical removal of expired entries is not
    modelled, since no read can tell it from their staying in place. *)
Definition expired (t : Z) (e : CacheEntry) : bool :=
  insertedAt e + stdTTL * 1000 <? t.

Definition NodeCache_get (store : gmap string CacheEntry) (t : Z) (key : string)
  : option ImageGenerationResult :=
  match store !! key with
  | Some e => if expired t e then None else Some (payload e)
  | None => None
  end.

Definition NodeCache_set (store : gmap string CacheEntry) (t : Z) (key : string)
  (v : ImageGenerationResult) : gmap string CacheEntry :=
  <[key := {| payload := v; insertedAt := t |}]> store.

(** ** The world and its ghost trace *)

Inductive SleepSite := RateLimitWait | Backoff.

Inductive Event :=
  | CacheGet (key : string) (hit : bool)
  | CacheSet (key : string)
  | Sleep (site : SleepSite) (ms : Z)
  | Outbound (attempt : Z) (startedAt : Z) (body : RequestBody) (ok : bool).

Record World := {
  now : Z;
  lastApiCall : Z;
  imageCache : gmap string CacheEntry;
  apiCalls : nat;
  trace : list Event
}.

Definition MIN_DELAY : Z := 1000.

(** A computation of the module: it reads and updates the world. *)
Definition M (A : Type) : Type := World -> A * World.

Definition ret {A} (a : A) : M A := fun w => (a, w).

Definition bind {A B} (m : M A) (k : A -> M B) : M B :=
  fun w => let (a, w') := m w in k a w'.

Notation "x <- m ;; k" := (bind m (fun x => k))
  (at level 100, m at next level, right associativity).
Notation "m ;;; k" := (bind m (fun _ => k))
  (at level 100, right associativity).

Definition Date_now : M Z := fun w => (now w, w).

Definition emit (e : Event) : M unit := fun w =>
  (tt, {| now := now w; lastApiCall := lastApiCall w; imageCache := imageCache w;
          apiCalls := apiCalls w; trace := trace w ++ [e] |}).

Definition advance (ms : Z) : M unit := fun w =>
  (tt, {| now := now w + ms; lastApiCall := lastApiCall w; imageCache := imageCache w;
          apiCalls := apiCalls w; trace := trace w |}).

(** [sleep(ms)]: the clock is an ideal one, the promise resolves after
    exactly [ms].  That is the timer of the source for delays from 1 ms to
    2^31 - 1 ms, which it takes as they are; it turns a longer delay into
    1 ms, so the statements below that speak of the time a sleep takes do
    so within that range: the waits of the gate (at most [MIN_DELAY] once
    [lastApiCall] is a time of the past) and the backoffs up to attempt 21.
    The site is ghost: which of the two callers sleeps.  The event records
    the delay asked for. *)
Definition sleep (site : SleepSite) (ms : Z) : M unit :=
  emit (Sleep site ms) ;;; advance ms.

Definition get_lastApiCall : M Z := fun w => (lastApiCall w, w).

Definition set_lastApiCall (t : Z) : M unit := fun w =>
  (tt, {| now := now w; lastApiCall := t; imageCache := imageCache w;
          apiCalls := apiCalls w; trace := trace w |}).

(** [enforceRateLimit()]. *)
Definition enforceRateLimit : M unit :=
  t <- Date_now ;;
  last <- get_lastApiCall ;;
  let timeSinceLastCall := t - last in
  (if timeSinceLastCall <? MIN_DELAY
   then sleep RateLimitWait (MIN_DELAY - timeSinceLastCall)
   else ret tt) ;;;
  t' <- Date_now ;;
  set_lastApiCall t'.

(** [imageCache.get(key)] and [imageCache.set(key, value)]. *)
Definition imageCache_get (key : string) : M (option ImageGenerationResult) := fun w =>
  let r := NodeCache_get (imageCache w) (now w) key in
  (r, snd (emit (CacheGet key (bool_decide (is_Some r))) w)).

Definition imageCache_set (key : string) (v : ImageGenerationResult) : M unit := fun w =>
  (tt, snd (emit (CacheSet key)
    {| now := now w; lastApiCall := lastApiCall w;
       imageCache := NodeCache_set (imageCache w) (now w) key v;
       apiCalls := apiCalls w; trace := trace w |})).

Definition resolved (r : AxiosOutcome) : bool :=
  match r with Resolved _ _ => true | Rejected _ => false end.

(** The answer to a request sent from world [w]. *)
Definition reply (env : Env) (body : RequestBody) (w : World) : AxiosReply :=
  axios_post env (apiCalls w) (now w) body.

(** [axios.post(OPENAI_API_IMAGE, requestBody, ...)]: the request leaves
    at the current time and the call comes back [latency] later.  The
    attempt number and the outcome are recorded in the ghost event. *)
Definition post (env : Env) (attempt : Z) (body : RequestBody) : M AxiosOutcome := fun w =>
  let r := reply env body w in
  (outcome r,
   snd ((emit (Outbound attempt (now w) body (resolved (outcome r))) ;;;
         advance (Z.of_N (latency r)))
     {| now := now w; lastApiCall := lastApiCall w; imageCache := imageCache w;
        apiCalls := S (apiCalls w); trace := trace w |})).

(** ** [generateProductImage] *)

Definition requestBody (prompt : string) (options : ImageGenerationOptions) : RequestBody :=
  let m := model_of options in
  {| body_model := m;
     body_prompt := prompt;
     body_n := 1;
     body_size := size_of options;
     body_response_format := "url";
     body_quality := if decide (m = dall_e_3) then Some (quality_of options) else None;
     body_style := if decide (m = dall_e_3) then Some (style_of options) else None |}.

(** How the [for] loop is left: by the [return] inside the [try] block, or
    towards the code after the loop (by [break] or by its condition), with
    [lastError] as it then stands. *)
Inductive LoopExit :=
  | Return (r : ImageGenerationResult)
  | AfterLoop (lastError : option AxiosError).

(** The loop [for (attempt = 1; attempt <= maxRetries; attempt++)], from
    the test of its condition at [attempt] on.  [fuel] bounds the number of
    tests; [None] is fuel run out. *)
Fixpoint retryLoop (env : Env) (prompt : string) (options : ImageGenerationOptions)
  (fuel : nat) (attempt : Z) (lastError : option AxiosError) : M (option LoopExit) :=
  match fuel with
  | O => ret None
  | S fuel' =>
    if Number_le attempt (maxRetries_of options) then
      enforceRateLimit ;;;
      r <- post env attempt (requestBody prompt options) ;;
      match r with
      | Resolved url revised =>
        let result := {| imageUrl := url; revisedPrompt := revised;
                         fromCache := false; attempts := attempt |} in
        (if useCache_of options
         then imageCache_set (createCacheKey prompt options) result
         else ret tt) ;;;
        ret (Some (Return result))
      | Rejected error =>
        if Number_eq attempt (maxRetries_of options) then ret (Some (AfterLoop (Some error)))
        else
          let backoffDelay := 2 ^ attempt * 1000 in
          sleep Backoff backoffDelay ;;;
          retryLoop env prompt options fuel' (attempt + 1) (Some error)
      end
    else ret (Some (AfterLoop lastError))
  end.

(** How a call ends. *)
Inductive Completion :=
  | Returned (r : ImageGenerationResult)
  | Thrown (e : WrapperError).

(** The message of the final error:
    [lastError?.response?.data?.error?.message || lastError?.message || 'Unknown error']. *)
Definition failureMessage (lastError : option AxiosError) : string :=
  or_else (lastError ≫= response_error_message)
    (or_else (error_message <$> lastError) "Unknown error").

Definition exhausted (env : Env) (options : ImageGenerationOptions)
  (lastError : option AxiosError) : WrapperError :=
  {| message := "Failed to generate image after "
                  ++ Number_toString env (maxRetries_of options)
                  ++ " attempts: " ++ failureMessage lastError;
     cause_status := 500 |}.

(** The part of [generateProductImage] after the cache check. *)
Definition attemptAll (env : Env) (prompt : string) (options : ImageGenerationOptions)
  (fuel : nat) : M (option Completion) :=
  x <- retryLoop env prompt options fuel 1 None ;;
  match x with
  | None => ret None
  | Some (Return r) => ret (Some (Returned r))
  | Some (AfterLoop lastError) => ret (Some (Thrown (exhausted env options lastError)))
  end.

(** [generateProductImage(prompt, options)] with a given fuel for its loop. *)
Definition generateProductImage_fuel (env : Env) (fuel : nat) (prompt : string)
  (options : ImageGenerationOptions) : M (option Completion) :=
  if negb (truthy prompt) then
    ret (Some (Thrown {| message := "Prompt is required"; cause_status := 400 |}))
  else if negb (truthy (default "" (OPENAI_API_KEY env))) then
    ret (Some (Thrown {| message := "OpenAI API key not configured"; cause_status := 500 |}))
  else if useCache_of options then
    cached <- imageCache_get (createCacheKey prompt options) ;;
    match cached with
    | Some c =>
      ret (Some (Returned {| imageUrl := imageUrl c; revisedPrompt := revisedPrompt c;
                             fromCache := true; attempts := 0 |}))
    | None => attemptAll env prompt options fuel
    end
  else attemptAll env prompt options fuel.

(** Whether the condition of the loop is sure to fail in the end: the
    counter, a double, counts up to 2^53 and stays there. *)
Definition bounded (n : Number) : bool :=
  match n with
  | Real q => Qle_bool q (inject_Z (2 ^ 53))
  | PosInfinity => false
  | NegInfinity | NaN => true
  end.

(** The number of the last attempt that a bounded [maxRetries] allows, 0
    when it allows none: the largest integer that is not above it. *)
Definition limit (n : Number) : Z :=
  match n with
  | Real q => Z.max 0 (Qfloor q)
  | PosInfinity | NegInfinity | NaN => 0
  end.

(** The fuel of a call: with a bounded [maxRetries], one test per attempt
    allowed and one more, which the loop never uses up; otherwise the
    tests for which the call is followed. *)
Definition enough_fuel (env : Env) (options : ImageGenerationOptions) : nat :=
  if bounded (maxRetries_of options)
  then S (Z.to_nat (limit (maxRetries_of options)))
  else S (horizon env).

Definition generateProductImage (env : Env) (prompt : string)
  (options : ImageGenerationOptions) : M (option Completion) :=
  generateProductImage_fuel env (enough_fuel env options) prompt options.

(** ** Observations on worlds and traces *)

Local Close Scope string_scope.

(** The worlds reached by the primitive steps. *)
Definition gate (w : World) : World := snd (enforceRateLimit w).

Definition sent (env : Env) (attempt : Z) (body : RequestBody) (w : World) : World :=
  snd (post env attempt body w).

Definition stored (key : string) (v : ImageGenerationResult) (w : World) : World :=
  snd (imageCache_set key v w).

Definition slept (site : SleepSite) (ms : Z) (w : World) : World :=
  snd (sleep site ms w).

Definition looked (key : string) (w : World) : World :=
  snd (imageCache_get key w).

(** Time passing between two calls, nothing else happening. *)
Definition elapse (d : Z) (w : World) : World := snd (advance d w).

(** The wait that the gate asks for. *)
Definition gateWait (w : World) : Z := Z.max 0 (lastApiCall w + MIN_DELAY - now w).

Definition gateEvents (w : World) : list Event :=
  if now w - lastApiCall w <? MIN_DELAY
  then [Sleep RateLimitWait (MIN_DELAY - (now w - lastApiCall w))]
  else [].

(** The events between an earlier world and a later one. *)
Definition since (w w' : World) : list Event := drop (length (trace w)) (trace w').

(** The number of requests sent between two worlds. *)
Definition attemptsMade (w w' : World) : Z := Z.of_nat (apiCalls w') - Z.of_nat (apiCalls w).

Definition is_outbound (e : Event) : bool :=
  match e with Outbound _ _ _ _ => true | _ => false end.

Definition is_cache_op (e : Event) : bool :=
  match e with CacheGet _ _ | CacheSet _ => true | _ => false end.


(** The retry schedule seen in a trace: attempts and backoff sleeps. *)
Inductive Step :=
  | Attempt (k : Z) (ok : bool)
  | Wait (ms : Z).

Definition step_of (e : Event) : option Step :=
  match e with
  | Outbound k _ _ ok => Some (Attempt k ok)
  | Sleep Backoff ms => Some (Wait ms)
  | _ => None
  end.

Definition timeline (tr : list Event) : list Step := omap step_of tr.

Definition wait_of (s : Step) : option Z :=
  match s with Wait ms => Some ms | Attempt _ _ => None end.

Definition backoffDelays (tr : list Event) : list Z := omap wait_of (timeline tr).

Definition start_of (e : Event) : option Z :=
  match e with Outbound _ t _ _ => Some t | _ => None end.

(** The times at which the requests of a trace were sent. *)
Definition outboundStarts (tr : list Event) : list Z := omap start_of tr.

(** [n] attempts numbered from [a]: all but the last one fail and are
    followed by a sleep of [2 ^ k] seconds; the last one ends as [ok] says. *)
Fixpoint schedule (a : Z) (n : nat) (ok : bool) : list Step :=
  match n with
  | O => []
  | S n' =>
    match n' with
    | O => [Attempt a ok]
    | S _ => Attempt a false :: Wait (2 ^ a * 1000) :: schedule (a + 1) n' ok
    end
  end.

(** Consecutive elements at least [MIN_DELAY] apart. *)
Definition spaced (l : list Z) : Prop :=
  forall i t t', l !! i = Some t -> l !! S i = Some t' -> t + MIN_DELAY <= t'.

(** The gate invariant: requests so far are spaced, and none was sent
    after [lastApiCall]. *)
Definition gated (w : World) : Prop :=
  spaced (outboundStarts (trace w)) /\
  forall t, t ∈ outboundStarts (trace w) -> t <= lastApiCall w.

Definition configured (env : Env) : Prop :=
  truthy (default "" (OPENAI_API_KEY env)) = true.

(** The cache check of a call finds nothing to return: caching is off, or
    the store has no live entry under the key. *)
Definition cacheMiss (prompt : string) (options : ImageGenerationOptions) (w : World) : Prop :=
  useCache_of options = false \/
  NodeCache_get (imageCache w) (now w) (createCacheKey prompt options) = None.

(** Whether an event is a request that succeeded. *)
Definition succeeded (e : Event) : bool :=
  match e with Outbound _ _ _ ok => ok | _ => false end.

(** No request among these events has succeeded. *)
Definition all_failed (evs : list Event) : Prop := Forall (fun e => succeeded e = false) evs.

(** The API is down: whatever is asked, and whenever, the request fails. *)
Definition always_fails (env : Env) : Prop :=
  forall i t b, resolved (outcome (axios_post env i t b)) = false.

Definition rejection (r : AxiosOutcome) : option AxiosError :=
  match r with Rejected e => Some e | Resolved _ _ => None end.

(** The error caught at the last request sent before world [w'], when that
    request is the one that set [lastApiCall]. *)
Definition lastRejection (env : Env) (body : RequestBody) (w' : World) : option AxiosError :=
  rejection (outcome (axios_post env (pred (apiCalls w')) (lastApiCall w') body)).

(** ** Concrete inputs for the examples *)

Definition no_options : ImageGenerationOptions :=
  {| model := None; size := None; quality := None; style := None;
     maxRetries := None; useCache := None |}.

Definition with_number (n : Number) : ImageGenerationOptions :=
  {| model := None; size := None; quality := None; style := None;
     maxRetries := Some n; useCache := None |}.

Definition with_maxRetries (n : Z) : ImageGenerationOptions := with_number (whole n).

Definition without_cache (n : Z) : ImageGenerationOptions :=
  {| model := None; size := None; quality := None; style := None;
     maxRetries := Some (whole n); useCache := Some false |}.


(** The engine of the examples: it is asked about 2.5 only. *)
Definition numeral_of_examples (q : Q) : string :=
  if Qeq_bool q (Qmake 5 2) then "2.5"%string else "?"%string.

(** A process that has just started, at some time of day. *)
Definition started : World :=
  {| now := 1700000000000; lastApiCall := 0; imageCache := ∅; apiCalls := 0; trace := [] |}.

Definition rate_limited : AxiosError :=
  {| response_error_message := Some "Rate limit exceeded"%string;
     error_message := "Request failed with status code 429"%string |}.

(** An API that rejects every request after 100 ms. *)
Definition api_down : Env :=
  {| OPENAI_API_KEY := Some "sk-test"%string;
     axios_post := fun _ _ _ => {| outcome := Rejected rate_limited; latency := 100 |};
     numeral := numeral_of_examples; horizon := 5 |}.

(** An API that answers every request after 500 ms. *)
Definition api_up : Env :=
  {| OPENAI_API_KEY := Some "sk-test"%string;
     axios_post := fun _ _ _ =>
       {| outcome := Resolved "https://images.example/1.png"%string None; latency := 500 |};
     numeral := numeral_of_examples; horizon := 5 |}.

(** An API that rejects the first two requests of the process. *)
Definition api_flaky : Env :=
  {| OPENAI_API_KEY := Some "sk-test"%string;
     axios_post := fun i _ _ =>
       if (i <? 2)%nat then {| outcome := Rejected rate_limited; latency := 100 |}
       else {| outcome := Resolved "https://images.example/1.png"%string None;
               latency := 500 |};
     numeral := numeral_of_examples; horizon := 5 |}.

Definition old_image : ImageGenerationResult :=
  {| imageUrl := "https://images.example/0.png"%string; revisedPrompt := None;
     fromCache := false; attempts := 1 |}.

(** A process whose store holds an image cached one hour and one
    millisecond ago for the prompt "Red backpack" and no options. *)
Definition stale : World :=
  {| now := 1700003600001; lastApiCall := 1699999999500;
     imageCache :=
       {[ "image_dall-e-3_1024x1024_standard_vivid_red_backpack"%string :=
            {| payload := old_image; insertedAt := 1700000000000 |} ]};
     apiCalls := 1; trace := [] |}.

(** An API that answers every request after 500 ms with an image named
    after the prompt it was sent. *)
Definition api_echo : Env :=
  {| OPENAI_API_KEY := Some "sk-test"%string;
     axios_post := fun _ _ b =>
       {| outcome := Resolved ("https://images.example/" ++ body_prompt b)%string None;
          latency := 500 |};
     numeral := numeral_of_examples; horizon := 5 |}.

(** ** The key of a prompt, character by character *)

(** What becomes of one character of the prompt in the key, in the words
    of the description: a capital letter becomes the small one, a small
    letter or a digit stays, anything else becomes an underscore. *)
Definition key_char (c : ascii) : ascii :=
  let n := code c in
  if ((65 <=? n) && (n <=? 90))%N then ascii_of_N (n + 32)
  else if ((97 <=? n) && (n <=? 122))%N then c
  else if ((48 <=? n) && (n <=? 57))%N then c
  else "_"%char.

(** The part of the key that comes from the prompt. *)
Definition fingerprint (prompt : string) : string :=
  substring 0 50 (replace_non_alnum (toLowerCase prompt)).

(** ** Sequential use of the wrapper *)

(** A session: calls made one after the other, each some time after the
    previous one has ended. *)
Fixpoint session (env : Env) (calls : list (Z * string * ImageGenerationOptions))
  (w : World) : World :=
  match calls with
  | [] => w
  | (d, prompt, options) :: rest =>
    session env rest (snd (generateProductImage env prompt options (elapse d w)))
  end.

(** ** Worlds and events of a call *)

(** The world in which attempt [a], started from [w], hears its answer. *)
Definition answered (env : Env) (prompt : string) (options : ImageGenerationOptions)
  (a : Z) (w : World) : World :=
  sent env a (requestBody prompt options) (gate w).

(** The answer that attempt hears. *)
Definition answer (env : Env) (prompt : string) (options : ImageGenerationOptions)
  (w : World) : AxiosOutcome :=
  outcome (reply env (requestBody prompt options) (gate w)).

(** The result built from a response at attempt [a]. *)
Definition success (a : Z) (url : string) (revised : option string) : ImageGenerationResult :=
  {| imageUrl := url; revisedPrompt := revised; fromCache := false; attempts := a |}.

(** The object returned on a cache hit: [{...cached, fromCache: true, attempts: 0}]. *)
Definition hit (c : ImageGenerationResult) : ImageGenerationResult :=
  {| imageUrl := imageUrl c; revisedPrompt := revisedPrompt c;
     fromCache := true; attempts := 0 |}.

(** Whether the loop was left by its [return]. *)
Definition is_return (x : option LoopExit) : bool :=
  match x with Some (Return _) => true | _ => false end.

(** The backoff sleep that follows the last attempt of a schedule, when
    there is one. *)
Definition trailing (rest : bool) (last : Z) : list Step :=
  if rest then [Wait (2 ^ last * 1000)] else [].

(** What a run of the loop from attempt [a] adds to the trace: [n] requests,
    each of them allowed by [maxRetries], laid out as a schedule; the last
    one, when it fails and is not the attempt numbered [maxRetries], is
    followed by a backoff sleep as the others are ([rest]).  A loop left
    towards the code after it has then found its condition false. *)
Definition loop_schedule_at (options : ImageGenerationOptions)
  (a : Z) (w : World) (x : option LoopExit) (w' : World) : Prop :=
  trace w `prefix_of` trace w' /\
  exists (n : nat) (rest : bool),
    apiCalls w' = (apiCalls w + n)%nat /\
    (forall k, a <= k < a + Z.of_nat n -> Number_le k (maxRetries_of options) = true) /\
    (is_return x = true -> (1 <= n)%nat /\ rest = false) /\
    (rest = true ->
     (1 <= n)%nat /\ Number_eq (a + Z.of_nat n - 1) (maxRetries_of options) = false) /\
    (is_return x = false -> rest = false ->
     (n = 0%nat /\ (x = None \/ Number_le a (maxRetries_of options) = false)) \/
     ((1 <= n)%nat /\ Number_eq (a + Z.of_nat n - 1) (maxRetries_of options) = true)) /\
    (forall le', x = Some (AfterLoop le') -> rest = true ->
       Number_le (a + Z.of_nat n) (maxRetries_of options) = false) /\
    timeline (since w w')
    = schedule a n (is_return x) ++ trailing rest (a + Z.of_nat n - 1).

(** What the code after the loop makes of the way the loop was left. *)
Definition completion_of (env : Env) (options : ImageGenerationOptions)
  (x : option LoopExit) : option Completion :=
  match x with
  | None => None
  | Some (Return r) => Some (Returned r)
  | Some (AfterLoop lastError) => Some (Thrown (exhausted env options lastError))
  end.

(** The world in which the loop is entered: after the cache check, if any. *)
Definition entered (prompt : string) (options : ImageGenerationOptions) (w : World) : World :=
  if useCache_of options then looked (createCacheKey prompt options) w else w.

(** The events before the loop is entered: the cache read that found
    nothing, with caching on. *)
Definition entryEvents (prompt : string) (options : ImageGenerationOptions) : list Event :=
  if useCache_of options then [CacheGet (createCacheKey prompt options) false] else [].


(** Events among which there is no cache operation. *)
Definition quiet (evs : list Event) : Prop := Forall (fun e => is_cache_op e = false) evs.

(** The last events of a loop that returns: the request that was answered
    and, with caching on, the write of its result. *)
Definition closing (prompt : string) (options : ImageGenerationOptions)
  (x : option LoopExit) (w' : World) : list Event :=
  match x with
  | Some (Return r) =>
    Outbound (attempts r) (lastApiCall w') (requestBody prompt options) true
      :: (if useCache_of options then [CacheSet (createCacheKey prompt options)] else [])
  | _ => []
  end.

(** The store after the loop, in terms of the store before it. *)
Definition written (prompt : string) (options : ImageGenerationOptions)
  (x : option LoopExit) (w w' : World) : gmap string CacheEntry :=
  match x with
  | Some (Return r) =>
    if useCache_of options
    then <[createCacheKey prompt options := {| payload := r; insertedAt := now w' |}]>
           (imageCache w)
    else imageCache w
  | _ => imageCache w
  end.

(** The last events of a call that returns a fresh result. *)
Definition closing_call (prompt : string) (options : ImageGenerationOptions)
  (c : option Completion) (w' : World) : list Event :=
  match c with
  | Some (Returned r) =>
    if fromCache r then []
    else Outbound (attempts r) (lastApiCall w') (requestBody prompt options) true
           :: (if useCache_of options then [CacheSet (createCacheKey prompt options)] else [])
  | _ => []
  end.

(** The store after a call, in terms of the store before it. *)
Definition written_call (prompt : string) (options : ImageGenerationOptions)
  (c : option Completion) (w w' : World) : gmap string CacheEntry :=
  match c with
  | Some (Returned r) =>
    if negb (fromCache r) && useCache_of options
    then <[createCacheKey prompt options := {| payload := r; insertedAt := now w' |}]>
           (imageCache w)
    else imageCache w
  | _ => imageCache w
  end.


(** ** Further observations *)

(** The requests of a trace: the number of the attempt and the body sent. *)
Definition request_of (e : Event) : option (Z * RequestBody) :=
  match e with Outbound k _ b _ => Some (k, b) | _ => None end.

Definition requests (tr : list Event) : list (Z * RequestBody) := omap request_of tr.

(** ** Cache administration *)

(** Modelled from the spec: [flushAll] of the third-party store, its
    clear-all operation, leaves it without entries. *)
Definition NodeCache_flushAll (store : gmap string CacheEntry) : gmap string CacheEntry := ∅.

(** [clearCache()]. *)
Definition clearCache : M unit := fun w =>
  (tt, {| now := now w; lastApiCall := lastApiCall w;
          imageCache := NodeCache_flushAll (imageCache w);
          apiCalls := apiCalls w; trace := trace w |}).

(** ** The route [POST /ai/generate-product-image] *)

(** What the route reads of a product document. *)
Record ProductDoc := {
  product_name : string;
  product_description : string
}.

(** What the handlers read of an error thrown by a query: [error.name],
    [error.code], the messages of [Object.values(error.errors)] (those of a
    mongoose ValidationError, none otherwise) and [error.message]. *)
Record DbError := {
  error_name : string;
  error_code : option Z;
  error_errors : list string;
  error_text : string
}.

(** How a query of the database ends: a document, [null], or a rejection
    with an error. *)
Inductive Lookup (A : Type) :=
  | Found (a : A)
  | NotFound
  | Fails (error : DbError).

Arguments Found {A} a.
Arguments NotFound {A}.
Arguments Fails {A} error.

(** The body of the request: [{ productId, prompt, options }], each
    possibly absent. *)
Record GenerateImageRequest := {
  req_productId : option string;
  req_prompt : option string;
  req_options : option ImageGenerationOptions
}.

Record Metadata := {
  meta_fromCache : bool;
  meta_attempts : Z;
  meta_model : string;
  meta_size : string;
  meta_quality : string;
  meta_style : string
}.

(** The JSON bodies that the route answers with. *)
Inductive AiBody :=
  | ImageGenerated (message imageUrl prompt : string) (revisedPrompt : option string)
      (productId : option string) (metadata : Metadata)
  | KeyNotConfigured (message error : string)
  | ProductNotFound (message : string)
  | GenerationFailed (message error service : string).

Record HttpResponse := {
  status : Z;
  body : AiBody
}.

(** The prompt that the route makes up from a product. *)
Definition productPrompt (product : ProductDoc) : string :=
  ("Professional product photography of " ++ product_name product ++ ", "
     ++ product_description product
     ++ ", white background, high quality, e-commerce style, studio lighting, commercial photo"
  )%string.

(** [x || 500] for a status. *)
Definition status_or_500 (x : Z) : Z := if x =? 0 then 500 else x.

(** The handler of the route, after [verifyToken] has let the request
    through.  [findById] is [Product.findById] as the database answers it
    during this request; an error of the database has no [cause], so the
    [catch] answers it with status 500. *)
Definition generateProductImageRoute (env : Env)
  (findById : option string -> Lookup ProductDoc) (req : GenerateImageRequest)
  : M (option HttpResponse) :=
  let options := default no_options (req_options req) in
  if negb (truthy (default ""%string (OPENAI_API_KEY env))) then
    ret (Some {| status := 500;
                 body := KeyNotConfigured "OpenAI API key not configured"
                           "Server configuration error" |})
  else
    match findById (req_productId req) with
    | Fails error =>
      ret (Some {| status := 500;
                   body := GenerationFailed "Failed to generate image"
                             (or_else (Some (error_text error)) "Unknown error")
                             "Enhanced OpenAI DALL-E 3 with retry & caching" |})
    | NotFound =>
      ret (Some {| status := 404; body := ProductNotFound "Product not found" |})
    | Found product =>
      let prompt := or_else (req_prompt req) (productPrompt product) in
      c <- generateProductImage env prompt options ;;
      match c with
      | None => ret None
      | Some (Returned result) =>
        ret (Some {| status := 200;
                     body := ImageGenerated
                       "Image generated successfully with enhanced AI utils"
                       (imageUrl result) prompt (revisedPrompt result) (req_productId req)
                       {| meta_fromCache := fromCache result;
                          meta_attempts := attempts result;
                          meta_model := Model_str (model_of options);
                          meta_size := Size_str (size_of options);
                          meta_quality := Quality_str (quality_of options);
                          meta_style := Style_str (style_of options) |} |})
      | Some (Thrown e) =>
        ret (Some {| status := status_or_500 (cause_status e);
                     body := GenerationFailed "Failed to generate image"
                               (or_else (Some (message e)) "Unknown error")
                               "Enhanced OpenAI DALL-E 3 with retry & caching" |})
      end
    end.

(** The prompt and the options that the route hands to the wrapper. *)
Definition routePrompt (product : ProductDoc) (req : GenerateImageRequest) : string :=
  or_else (req_prompt req) (productPrompt product).

Definition routeOptions (req : GenerateImageRequest) : ImageGenerationOptions :=
  default no_options (req_options req).

(** ** The orders controller and the error handler *)

(** Prices, quantities and totals are JavaScript numbers; what the
    controller does with them is [0], [+] and [*], taken here as given. *)
Record Arithmetic := {
  num : Type;
  num_zero : num;
  num_add : num -> num -> num;
  num_mul : num -> num -> num
}.

(** The integers as numbers, for the examples. *)
Definition integers : Arithmetic :=
  {| num := Z; num_zero := 0; num_add := Z.add; num_mul := Z.mul |}.

Record OrderItem (A : Arithmetic) := {
  item_productId : string;
  item_quantity : num A
}.

Arguments item_productId {A} _.
Arguments item_quantity {A} _.

(** What the controller reads of an order document. *)
Record OrderDoc (A : Arithmetic) := {
  order_userId : string;
  order_products : list (OrderItem A);
  order_total : num A
}.

Arguments order_userId {A} _.
Arguments order_products {A} _.
Arguments order_total {A} _.

(** The body of [POST /orders]. *)
Record CreateOrderBody (A : Arithmetic) := {
  create_userId : string;
  create_products : list (OrderItem A)
}.

Arguments create_userId {A} _.
Arguments create_products {A} _.

(** The body of [PUT /orders/:id], and the update made of it once
    [total] is set. *)
Record UpdateOrderBody (A : Arithmetic) := {
  update_userId : option string;
  update_products : option (list (OrderItem A));
  update_total : option (num A)
}.

Arguments update_userId {A} _.
Arguments update_products {A} _.
Arguments update_total {A} _.

(** The queries that the controller puts to the database. *)
Inductive DbQuery (A : Arithmetic) :=
  | UserFindById (id : string)
  | ProductFindById (id : string)
  | OrderSave (userId : string) (products : list (OrderItem A)) (total : num A)
  | OrderPopulate (path : string)
  | OrderFindById (id : string)
  | OrderFindByIdAndUpdate (id : string) (update : UpdateOrderBody A)
  | OrderFindByIdAndDelete (id : string).

Arguments UserFindById {A} id.
Arguments ProductFindById {A} id.
Arguments OrderSave {A} userId products total.
Arguments OrderPopulate {A} path.
Arguments OrderFindById {A} id.
Arguments OrderFindByIdAndUpdate {A} id update.
Arguments OrderFindByIdAndDelete {A} id.

(** How the database answers: each answer may depend on the queries made
    before it.  A user is looked up for its existence, a product for its
    price. *)
Record Database (A : Arithmetic) := {
  answer_user : list (DbQuery A) -> string -> Lookup unit;
  answer_product : list (DbQuery A) -> string -> Lookup (num A);
  answer_save : list (DbQuery A) -> string -> list (OrderItem A) -> num A
                -> OrderDoc A + DbError;
  answer_populate : list (DbQuery A) -> OrderDoc A -> string -> OrderDoc A + DbError;
  answer_order : list (DbQuery A) -> string -> Lookup (OrderDoc A);
  answer_update : list (DbQuery A) -> string -> UpdateOrderBody A -> Lookup (OrderDoc A);
  answer_delete : list (DbQuery A) -> string -> Lookup (OrderDoc A)
}.

Arguments answer_user {A} _ _ _.
Arguments answer_product {A} _ _ _.
Arguments answer_save {A} _ _ _ _ _.
Arguments answer_populate {A} _ _ _ _.
Arguments answer_order {A} _ _ _.
Arguments answer_update {A} _ _ _ _.
Arguments answer_delete {A} _ _ _.

(** The JSON bodies of the answers. *)
Inductive OrdersBody (A : Arithmetic) :=
  | OrderJson (order : OrderDoc A)
  | TemplateJson (userId : string) (products : list (OrderItem A))
  | ErrorJson (error : string)
  | ErrorDetailsJson (error : string) (details : list string)
  | NoBody.

Arguments OrderJson {A} order.
Arguments TemplateJson {A} userId products.
Arguments ErrorJson {A} error.
Arguments ErrorDetailsJson {A} error details.
Arguments NoBody {A}.

Record Reply (A : Arithmetic) := {
  reply_status : Z;
  reply_body : OrdersBody A
}.

Arguments reply_status {A} _.
Arguments reply_body {A} _.

(** How a handler ends: with an answer of its own, or by [next(error)]. *)
Inductive Handled (A : Arithmetic) :=
  | Respond (reply : Reply A)
  | Next (error : DbError).

Arguments Respond {A} reply.
Arguments Next {A} error.

(** [errorHandler(error, req, res, next)]. *)
Definition errorHandler {A : Arithmetic} (error : DbError) : Reply A :=
  if String.eqb (error_name error) "ValidationError" then
    {| reply_status := 400;
       reply_body := ErrorDetailsJson "Validation Error" (error_errors error) |}
  else if bool_decide (error_code error = Some 11000) then
    {| reply_status := 400; reply_body := ErrorJson "Duplicate field value entered" |}
  else if String.eqb (error_name error) "CastError" then
    {| reply_status := 400; reply_body := ErrorJson "Invalid ID format" |}
  else
    {| reply_status := 500; reply_body := ErrorJson "Internal server error" |}.

(** The answer that leaves the application: the handler's own, or the
    error handler's when the handler called [next(error)]. *)
Definition answered_by {A : Arithmetic} (h : Handled A) : Reply A :=
  match h with
  | Respond reply => reply
  | Next error => errorHandler error
  end.

(** How the loop over the products of an order is left. *)
Inductive Priced (A : Arithmetic) :=
  | Total (total : num A)
  | Missing (productId : string)
  | Raised (error : DbError).

Arguments Total {A} total.
Arguments Missing {A} productId.
Arguments Raised {A} error.

(** The loop [for (const orderProduct of products)] of [createOrder] and
    [updateOrder], from a running [total]: each product is looked up, the
    first one that is missing or whose query fails ends the loop. *)
Fixpoint priceProducts {A : Arithmetic} (db : Database A) (products : list (OrderItem A))
  (total : num A) (log : list (DbQuery A)) : Priced A * list (DbQuery A) :=
  match products with
  | [] => (Total total, log)
  | orderProduct :: rest =>
    let id := item_productId orderProduct in
    match answer_product db log id with
    | Fails error => (Raised error, log ++ [ProductFindById id])
    | NotFound => (Missing id, log ++ [ProductFindById id])
    | Found price =>
      priceProducts db rest
        (num_add A total (num_mul A price (item_quantity orderProduct)))
        (log ++ [ProductFindById id])
    end
  end.

(** [createOrder(req, res, next)]. *)
Definition createOrder {A : Arithmetic} (db : Database A) (body : CreateOrderBody A)
  (log : list (DbQuery A)) : Handled A * list (DbQuery A) :=
  let userId := create_userId body in
  let log1 := log ++ [UserFindById userId] in
  match answer_user db log userId with
  | Fails error => (Next error, log1)
  | NotFound =>
    (Respond {| reply_status := 400; reply_body := ErrorJson "User not found" |}, log1)
  | Found _ =>
    match priceProducts db (create_products body) (num_zero A) log1 with
    | (Raised error, log2) => (Next error, log2)
    | (Missing id, log2) =>
      (Respond {| reply_status := 400;
                  reply_body := ErrorJson ("Product " ++ id ++ " not found")%string |}, log2)
    | (Total total, log2) =>
      let log3 := log2 ++ [OrderSave userId (create_products body) total] in
      match answer_save db log2 userId (create_products body) total with
      | inr error => (Next error, log3)
      | inl savedOrder =>
        let log4 := log3 ++ [OrderPopulate "userId"] in
        match answer_populate db log3 savedOrder "userId" with
        | inr error => (Next error, log4)
        | inl withUser =>
          let log5 := log4 ++ [OrderPopulate "products.productId"] in
          match answer_populate db log4 withUser "products.productId" with
          | inr error => (Next error, log5)
          | inl populated =>
            (Respond {| reply_status := 201; reply_body := OrderJson populated |}, log5)
          end
        end
      end
    end
  end.

(** The end of [updateOrder]: the update is made and its result answered. *)
Definition applyUpdate {A : Arithmetic} (db : Database A) (id : string)
  (update : UpdateOrderBody A) (log : list (DbQuery A)) : Handled A * list (DbQuery A) :=
  let log1 := log ++ [OrderFindByIdAndUpdate id update] in
  match answer_update db log id update with
  | Fails error => (Next error, log1)
  | NotFound =>
    (Respond {| reply_status := 404; reply_body := ErrorJson "Order not found" |}, log1)
  | Found order => (Respond {| reply_status := 200; reply_body := OrderJson order |}, log1)
  end.

(** [updateOrder(req, res, next)]: [id] is [req.params.id]. *)
Definition updateOrder {A : Arithmetic} (db : Database A) (id : string)
  (body : UpdateOrderBody A) (log : list (DbQuery A)) : Handled A * list (DbQuery A) :=
  match update_products body with
  | Some products =>
    match priceProducts db products (num_zero A) log with
    | (Raised error, log1) => (Next error, log1)
    | (Missing productId, log1) =>
      (Respond {| reply_status := 400;
                  reply_body := ErrorJson ("Product " ++ productId ++ " not found")%string |},
       log1)
    | (Total total, log1) =>
      applyUpdate db id
        {| update_userId := update_userId body;
           update_products := update_products body;
           update_total := Some total |} log1
    end
  | None => applyUpdate db id body log
  end.

(** [deleteOrder(req, res, next)]. *)
Definition deleteOrder {A : Arithmetic} (db : Database A) (id : string)
  (log : list (DbQuery A)) : Handled A * list (DbQuery A) :=
  let log1 := log ++ [OrderFindByIdAndDelete id] in
  match answer_delete db log id with
  | Fails error => (Next error, log1)
  | NotFound =>
    (Respond {| reply_status := 404; reply_body := ErrorJson "Order not found" |}, log1)
  | Found _ => (Respond {| reply_status := 204; reply_body := NoBody |}, log1)
  end.

(** [getOrderTemplate(req, res, next)]. *)
Definition getOrderTemplate {A : Arithmetic} (db : Database A) (id : string)
  (log : list (DbQuery A)) : Handled A * list (DbQuery A) :=
  let log1 := log ++ [OrderFindById id] in
  match answer_order db log id with
  | Fails error => (Next error, log1)
  | NotFound =>
    (Respond {| reply_status := 404; reply_body := ErrorJson "Order not found" |}, log1)
  | Found order =>
    (Respond {| reply_status := 200;
                reply_body :=
                  TemplateJson (order_userId order)
                    ((fun p => {| item_productId := item_productId p;
                                  item_quantity := item_quantity p |})
                       <$> order_products order) |}, log1)
  end.

(** Whether a query writes to the database. *)
Definition is_write {A : Arithmetic} (q : DbQuery A) : bool :=
  match q with
  | OrderSave _ _ _ | OrderFindByIdAndUpdate _ _ | OrderFindByIdAndDelete _ => true
  | _ => false
  end.

(** The queries that a handler adds to the log. *)
Definition queried {A : Arithmetic} (log log' : list (DbQuery A)) : list (DbQuery A) :=
  drop (length log) log'.

(** The product lookups of a list of order lines, as queries. *)
Definition lookups {A : Arithmetic} (products : list (OrderItem A)) : list (DbQuery A) :=
  (fun p => ProductFindById (item_productId p)) <$> products.

(** The total of an order: the sum, from [0] and in the order of the
    lines, of price times quantity. *)
Definition orderTotal {A : Arithmetic} (prices : list (num A)) (products : list (OrderItem A))
  (from : num A) : num A :=
  fold_left (fun total line => num_add A total (num_mul A (fst line) (item_quantity (snd line))))
    (zip prices products) from.

(** The database finds every product of the list, one lookup after the
    other from [log] on, at these prices. *)
Fixpoint allFound {A : Arithmetic} (db : Database A) (log : list (DbQuery A))
  (products : list (OrderItem A)) (prices : list (num A)) : Prop :=
  match products, prices with
  | [], [] => True
  | p :: products', price :: prices' =>
    answer_product db log (item_productId p) = Found price /\
    allFound db (log ++ [ProductFindById (item_productId p)]) products' prices'
  | _, _ => False
  end.

(** A database for the examples: it knows one user and two products, and
    saves and populates whatever it is given. *)
Definition shop : Database integers :=
  {| answer_user := fun _ id => if String.eqb id "u1" then Found tt else NotFound;
     answer_product := fun _ id =>
       if String.eqb id "p1" then Found (1999 : num integers)
       else if String.eqb id "p2" then Found (500 : num integers)
       else NotFound;
     answer_save := fun _ userId products total =>
       inl {| order_userId := userId; order_products := products; order_total := total |};
     answer_populate := fun _ order _ => inl order;
     answer_order := fun _ _ => NotFound;
     answer_update := fun _ _ _ => NotFound;
     answer_delete := fun _ _ => NotFound |}.

(** An order line of the examples. *)
Definition line (id : string) (quantity : Z) : OrderItem integers :=
  Build_OrderItem integers id quantity.

(** ** The route [GET /ai/test] of the first router *)

(** The JSON body of the answer. *)
Record TestReport := {
  report_message : string;
  report_hasApiKey : bool;
  report_apiKeyPrefix : string;
  report_service : string;
  report_isWorking : bool
}.

(** The handler: no token is asked for, and nothing in it can throw. *)
Definition testRoute (env : Env) : TestReport :=
  let hasApiKey := truthy (default ""%string (OPENAI_API_KEY env)) in
  let apiKeyPrefix :=
    match OPENAI_API_KEY env with
    | Some key => if truthy key then (substring 0 10 key ++ "...")%string
                  else "not found"%string
    | None => "not found"%string
    end in
  {| report_message := "AI service test - OpenAI DALL-E 3";
     report_hasApiKey := hasApiKey;
     report_apiKeyPrefix := apiKeyPrefix;
     report_service := "OpenAI";
     report_isWorking := hasApiKey |}.

(** ** The [toJSON] transform of the models *)

Section Transform.

Context {V : Type}.

(** [transform(doc, ret)] on the plain object [ret], a finite map from
    property names to values; a property that is [undefined] is one that
    is absent, as it is in the JSON made of the object. *)
Definition transform (ret : gmap string V) : gmap string V :=
  let with_id :=
    match ret !! "_id"%string with
    | Some v => <["id"%string := v]> ret
    | None => delete "id"%string ret
    end in
  delete "__v"%string (delete "_id"%string with_id).

End Transform.

(** * Properties *)

(** ** The primitive steps *)

Lemma gate_now w : now (gate w) = Z.max (now w) (lastApiCall w + MIN_DELAY).
Proof.
  unfold gate, enforceRateLimit, bind, Date_now, get_lastApiCall, sleep, bind, emit, advance,
    set_lastApiCall, ret, MIN_DELAY.
  destruct (Z.ltb_spec (now w - lastApiCall w) 1000); simpl; lia.
Qed.

Lemma gate_lastApiCall w : lastApiCall (gate w) = now (gate w).
Proof.
  unfold gate, enforceRateLimit, bind, Date_now, get_lastApiCall, sleep, bind, emit, advance,
    set_lastApiCall, ret.
  destruct (now w - lastApiCall w <? MIN_DELAY); reflexivity.
Qed.

Lemma gate_imageCache w : imageCache (gate w) = imageCache w.
Proof.
  unfold gate, enforceRateLimit, bind, Date_now, get_lastApiCall, sleep, bind, emit, advance,
    set_lastApiCall, ret.
  destruct (now w - lastApiCall w <? MIN_DELAY); reflexivity.
Qed.

Lemma gate_apiCalls w : apiCalls (gate w) = apiCalls w.
Proof.
  unfold gate, enforceRateLimit, bind, Date_now, get_lastApiCall, sleep, bind, emit, advance,
    set_lastApiCall, ret.
  destruct (now w - lastApiCall w <? MIN_DELAY); reflexivity.
Qed.

Lemma gate_trace w : trace (gate w) = trace w ++ gateEvents w.
Proof.
  unfold gate, gateEvents, enforceRateLimit, bind, Date_now, get_lastApiCall, sleep, bind,
    emit, advance, set_lastApiCall, ret.
  destruct (now w - lastApiCall w <? MIN_DELAY); simpl; [reflexivity | by rewrite app_nil_r].
Qed.

Lemma sent_now env a b w : now (sent env a b w) = now w + Z.of_N (latency (reply env b w)).
Proof. reflexivity. Qed.

Lemma sent_lastApiCall env a b w : lastApiCall (sent env a b w) = lastApiCall w.
Proof. reflexivity. Qed.

Lemma sent_imageCache env a b w : imageCache (sent env a b w) = imageCache w.
Proof. reflexivity. Qed.

Lemma sent_apiCalls env a b w : apiCalls (sent env a b w) = S (apiCalls w).
Proof. reflexivity. Qed.

Lemma sent_trace env a b w :
  trace (sent env a b w)
  = trace w ++ [Outbound a (now w) b (resolved (outcome (reply env b w)))].
Proof. reflexivity. Qed.

Lemma stored_now k v w : now (stored k v w) = now w.
Proof. reflexivity. Qed.

Lemma stored_lastApiCall k v w : lastApiCall (stored k v w) = lastApiCall w.
Proof. reflexivity. Qed.

Lemma stored_imageCache k v w :
  imageCache (stored k v w) = <[k := {| payload := v; insertedAt := now w |}]> (imageCache w).
Proof. reflexivity. Qed.

Lemma stored_apiCalls k v w : apiCalls (stored k v w) = apiCalls w.
Proof. reflexivity. Qed.

Lemma stored_trace k v w : trace (stored k v w) = trace w ++ [CacheSet k].
Proof. reflexivity. Qed.

Lemma slept_now s ms w : now (slept s ms w) = now w + ms.
Proof. reflexivity. Qed.

Lemma slept_lastApiCall s ms w : lastApiCall (slept s ms w) = lastApiCall w.
Proof. reflexivity. Qed.

Lemma slept_imageCache s ms w : imageCache (slept s ms w) = imageCache w.
Proof. reflexivity. Qed.

Lemma slept_apiCalls s ms w : apiCalls (slept s ms w) = apiCalls w.
Proof. reflexivity. Qed.

Lemma slept_trace s ms w : trace (slept s ms w) = trace w ++ [Sleep s ms].
Proof. reflexivity. Qed.

Lemma looked_now k w : now (looked k w) = now w.
Proof. reflexivity. Qed.

Lemma looked_lastApiCall k w : lastApiCall (looked k w) = lastApiCall w.
Proof. reflexivity. Qed.

Lemma looked_imageCache k w : imageCache (looked k w) = imageCache w.
Proof. reflexivity. Qed.

Lemma looked_apiCalls k w : apiCalls (looked k w) = apiCalls w.
Proof. reflexivity. Qed.

Lemma looked_trace k w :
  trace (looked k w)
  = trace w ++ [CacheGet k (bool_decide (is_Some (NodeCache_get (imageCache w) (now w) k)))].
Proof. reflexivity. Qed.

Create Rewrite HintDb world.

#[global] Hint Rewrite
  gate_lastApiCall gate_now gate_imageCache gate_apiCalls gate_trace
  sent_now sent_lastApiCall sent_imageCache sent_apiCalls sent_trace
  stored_now stored_lastApiCall stored_imageCache stored_apiCalls stored_trace
  slept_now slept_lastApiCall slept_imageCache slept_apiCalls slept_trace
  looked_now looked_lastApiCall looked_imageCache looked_apiCalls looked_trace
  : world.

(** ** Numbers and the counter of the loop *)

Lemma Number_le_Real k q : Number_le k (Real q) = (k <=? Qfloor q).
Proof.
  destruct q as [n d]. unfold Number_le, Qle_bool, inject_Z, Qfloor. cbn [Qnum Qden].
  rewrite Z.mul_1_r.
  pose proof (Z.mul_div_le n (Z.pos d) ltac:(lia)).
  destruct (Z.leb_spec k (n / Z.pos d)) as [H1|H1].
  - apply Z.leb_le. nia.
  - apply Z.leb_gt.
    destruct (Z.le_gt_cases (k * Z.pos d) n) as [H2|H2]; [|lia].
    exfalso. assert (k <= n / Z.pos d); [|lia].
    apply Z.div_le_lower_bound; lia.
Qed.

Lemma Number_eq_Real k q : Number_eq k (Real q) = true -> Qfloor q = k.
Proof.
  destruct q as [n d]. unfold Number_eq, Qeq_bool, inject_Z, Qfloor. cbn [Qnum Qden].
  rewrite Z.mul_1_r. intros H. apply Z.eqb_eq in H. rewrite <- H.
  apply Z.div_mul. lia.
Qed.



(** The attempt numbered [maxRetries] is one that [maxRetries] allows. *)
Lemma Number_eq_le k n : Number_eq k n = true -> Number_le k n = true.
Proof.
  destruct n as [q| | |]; try done. intros H.
  pose proof (Number_eq_Real k q H). rewrite Number_le_Real. apply Z.leb_le. lia.
Qed.

Lemma Number_le_down j k n : j <= k -> Number_le k n = true -> Number_le j n = true.
Proof.
  destruct n as [q| | |]; try done. rewrite !Number_le_Real. intros ? ?%Z.leb_le.
  apply Z.leb_le. lia.
Qed.

Lemma Number_le_limit k n : n <> PosInfinity -> 1 <= k -> Number_le k n = (k <=? limit n).
Proof.
  intros Hn Hk. destruct n as [q| | |]; try done.
  - rewrite Number_le_Real. unfold limit.
    destruct (Z.leb_spec k (Qfloor q)), (Z.leb_spec k (Z.max 0 (Qfloor q))); lia.
  - cbn. symmetry. apply Z.leb_gt. lia.
  - cbn. symmetry. apply Z.leb_gt. lia.
Qed.

Lemma Number_eq_limit k n : 1 <= k -> Number_eq k n = true -> limit n = k.
Proof.
  intros Hk H. destruct n as [q| | |]; try done.
  apply Number_eq_Real in H. unfold limit. lia.
Qed.


Lemma limit_nonneg n : 0 <= limit n.
Proof. destruct n; cbn; lia. Qed.

Lemma limit_whole z : limit (whole z) = Z.max 0 z.
Proof. unfold limit, whole, Qfloor, inject_Z. by rewrite Z.div_1_r. Qed.

Lemma bounded_finite n : bounded n = true -> n <> PosInfinity.
Proof. by destruct n. Qed.

(** A number at most 0 allows no attempt. *)
Lemma Number_nonpositive_le n : Number_nonpositive n = true -> Number_le 1 n = false.
Proof.
  destruct n as [[p d]| | |]; try done.
  unfold Number_nonpositive, Number_le, Qle_bool, inject_Z. cbn [Qnum Qden].
  intros H%Z.leb_le. apply Z.leb_gt. lia.
Qed.

(** The text of a whole number below 2^53 is its decimal numeral. *)
Lemma Number_toString_whole env z :
  Z.abs z < 2 ^ 53 -> Number_toString env (whole z) = decimal z.
Proof.
  intros Hz. unfold Number_toString, whole, safe_integer.
  assert (Qfloor (inject_Z z) = z) as -> by (unfold Qfloor, inject_Z; apply Z.div_1_r).
  assert (Qeq_bool (inject_Z z) (inject_Z z) = true) as ->
    by (apply Qeq_bool_iff; reflexivity).
  by destruct (Z.ltb_spec (Z.abs z) (2 ^ 53)); [|lia].
Qed.

(** ** The retry loop, case by case *)

Section Loop.

Variables (env : Env) (prompt : string) (options : ImageGenerationOptions).

Let mr : Number := maxRetries_of options.
Let body : RequestBody := requestBody prompt options.
Let key : string := createCacheKey prompt options.

Lemma enforceRateLimit_gate w : enforceRateLimit w = (tt, gate w).
Proof. unfold gate. by destruct (enforceRateLimit w) as [[] w']. Qed.

(** One turn of the loop, in terms of the worlds it goes through. *)
Lemma retryLoop_unfold fuel a le w :
  retryLoop env prompt options (S fuel) a le w =
  if Number_le a mr then
    match answer env prompt options w with
    | Resolved url revised =>
      (Some (Return (success a url revised)),
       if useCache_of options then stored key (success a url revised) (answered env prompt options a w)
       else answered env prompt options a w)
    | Rejected e =>
      if Number_eq a mr then (Some (AfterLoop (Some e)), answered env prompt options a w)
      else retryLoop env prompt options fuel (a + 1) (Some e)
             (slept Backoff (2 ^ a * 1000) (answered env prompt options a w))
    end
  else (Some (AfterLoop le), w).
Proof.
  cbn [retryLoop]. fold mr.
  destruct (Number_le a mr); [|reflexivity].
  unfold bind at 1. rewrite enforceRateLimit_gate.
  unfold bind at 1.
  change (post env a (requestBody prompt options) (gate w))
    with (answer env prompt options w, answered env prompt options a w).
  destruct (answer env prompt options w) as [url revised|e].
  - unfold bind, ret.
    destruct (useCache_of options); reflexivity.
  - destruct (Number_eq a mr); reflexivity.
Qed.

Variable P : Z -> option AxiosError -> World -> option LoopExit -> World -> Prop.

Hypothesis P_fuel : forall a le w, P a le w None w.

Hypothesis P_exit : forall a le w,
  Number_le a mr = false -> P a le w (Some (AfterLoop le)) w.

Hypothesis P_success : forall a le w url revised,
  Number_le a mr = true -> answer env prompt options w = Resolved url revised ->
  P a le w (Some (Return (success a url revised)))
    (if useCache_of options then stored key (success a url revised) (answered env prompt options a w)
     else answered env prompt options a w).

Hypothesis P_last : forall a le w e,
  Number_le a mr = true -> Number_eq a mr = true ->
  answer env prompt options w = Rejected e ->
  P a le w (Some (AfterLoop (Some e))) (answered env prompt options a w).

Hypothesis P_retry : forall a le w e x w',
  Number_le a mr = true -> Number_eq a mr = false ->
  answer env prompt options w = Rejected e ->
  P (a + 1) (Some e) (slept Backoff (2 ^ a * 1000) (answered env prompt options a w)) x w' ->
  P a le w x w'.

(** Whatever the fuel: [None] is the loop not left by the time it runs out. *)
Lemma retryLoop_cases fuel : forall a le w,
  P a le w (fst (retryLoop env prompt options fuel a le w))
           (snd (retryLoop env prompt options fuel a le w)).
Proof.
  induction fuel as [|fuel IH]; intros a le w; [apply P_fuel|].
  rewrite retryLoop_unfold.
  destruct (Number_le a mr) eqn:Hle; [|by apply P_exit].
  destruct (answer env prompt options w) as [url revised|e] eqn:Hr.
  - by apply P_success.
  - destruct (Number_eq a mr) eqn:Heq.
    + by apply P_last.
    + by apply (P_retry a le w e).
Qed.

End Loop.

#[global] Arguments retryLoop : simpl never.

(** ** Traces only grow *)

Lemma since_app (w w' : World) evs : trace w' = trace w ++ evs -> since w w' = evs.
Proof. intros H. unfold since. rewrite H. apply drop_app_length. Qed.

Lemma since_refl w : since w w = [].
Proof. apply since_app. by rewrite app_nil_r. Qed.

Lemma since_prefix (w w' : World) :
  trace w `prefix_of` trace w' -> trace w' = trace w ++ since w w'.
Proof. intros [evs H]. by rewrite (since_app _ _ _ H). Qed.

Lemma since_step (w w1 w2 : World) evs :
  trace w1 = trace w ++ evs -> trace w1 `prefix_of` trace w2 ->
  since w w2 = evs ++ since w1 w2.
Proof.
  intros H1 H2. apply since_app.
  rewrite (since_prefix _ _ H2), H1. by rewrite app_assoc.
Qed.

Lemma prefix_step (w w1 w2 : World) evs :
  trace w1 = trace w ++ evs -> trace w1 `prefix_of` trace w2 ->
  trace w `prefix_of` trace w2.
Proof. intros H1 H2. etrans; [|exact H2]. rewrite H1. by apply prefix_app_r. Qed.

Lemma timeline_app tr1 tr2 : timeline (tr1 ++ tr2) = timeline tr1 ++ timeline tr2.
Proof. apply omap_app. Qed.

Lemma timeline_gateEvents w : timeline (gateEvents w) = [].
Proof. unfold gateEvents. by destruct (_ <? _). Qed.

Lemma outboundStarts_app tr1 tr2 :
  outboundStarts (tr1 ++ tr2) = outboundStarts tr1 ++ outboundStarts tr2.
Proof. apply omap_app. Qed.

Lemma outboundStarts_gateEvents w : outboundStarts (gateEvents w) = [].
Proof. unfold gateEvents. by destruct (_ <? _). Qed.

(** The trace of one attempt: the gate's wait, if any, then the request. *)
Lemma answered_trace env prompt options a w :
  trace (answered env prompt options a w)
  = trace w ++ gateEvents w
      ++ [Outbound a (now (gate w)) (requestBody prompt options)
            (resolved (answer env prompt options w))].
Proof. unfold answered, answer. autorewrite with world. by rewrite <- app_assoc. Qed.

(** ** The call, case by case *)

Lemma attemptAll_unfold env prompt options fuel w :
  attemptAll env prompt options fuel w =
  (match fst (retryLoop env prompt options fuel 1 None w) with
   | None => None
   | Some (Return r) => Some (Returned r)
   | Some (AfterLoop lastError) => Some (Thrown (exhausted env options lastError))
   end,
   snd (retryLoop env prompt options fuel 1 None w)).
Proof.
  unfold attemptAll, bind.
  destruct (retryLoop env prompt options fuel 1 None w) as [[[r|le]|] w']; reflexivity.
Qed.

Lemma generateProductImage_unfold env prompt options w :
  generateProductImage env prompt options w =
  if negb (truthy prompt) then
    (Some (Thrown {| message := "Prompt is required"; cause_status := 400 |}), w)
  else if negb (truthy (default ""%string (OPENAI_API_KEY env))) then
    (Some (Thrown {| message := "OpenAI API key not configured"; cause_status := 500 |}), w)
  else if useCache_of options then
    match NodeCache_get (imageCache w) (now w) (createCacheKey prompt options) with
    | Some c => (Some (Returned (hit c)), looked (createCacheKey prompt options) w)
    | None =>
      attemptAll env prompt options (enough_fuel env options)
        (looked (createCacheKey prompt options) w)
    end
  else attemptAll env prompt options (enough_fuel env options) w.
Proof.
  unfold generateProductImage, generateProductImage_fuel.
  destruct (negb (truthy prompt)); [reflexivity|].
  destruct (negb (truthy _)); [reflexivity|].
  destruct (useCache_of options); [|reflexivity].
  unfold bind.
  change (imageCache_get (createCacheKey prompt options) w)
    with (NodeCache_get (imageCache w) (now w) (createCacheKey prompt options),
          looked (createCacheKey prompt options) w).
  destruct (NodeCache_get _ _ _); reflexivity.
Qed.

(** ** Termination: with a bounded maxRetries the loop ends *)

Lemma retryLoop_total env prompt options fuel : forall a le w,
  Number_le (a + Z.of_nat fuel) (maxRetries_of options) = false ->
  is_Some (fst (retryLoop env prompt options (S fuel) a le w)).
Proof.
  induction fuel as [|fuel IH]; intros a le w Hfuel; rewrite retryLoop_unfold.
  - replace (a + Z.of_nat 0) with a in Hfuel by lia. rewrite Hfuel. cbn. eauto.
  - destruct (Number_le a (maxRetries_of options)); [|cbn; eauto].
    destruct (answer env prompt options w); [cbn; eauto|].
    destruct (Number_eq a (maxRetries_of options)); [cbn; eauto|].
    apply IH. by replace (a + 1 + Z.of_nat fuel) with (a + Z.of_nat (S fuel)) by lia.
Qed.

Lemma enough_fuel_bounded env options :
  bounded (maxRetries_of options) = true ->
  enough_fuel env options = S (Z.to_nat (limit (maxRetries_of options))) /\
  Number_le (1 + Z.of_nat (Z.to_nat (limit (maxRetries_of options))))
    (maxRetries_of options) = false.
Proof.
  intros Hb. unfold enough_fuel. rewrite Hb. split; [done|].
  pose proof (limit_nonneg (maxRetries_of options)).
  rewrite Number_le_limit by (by apply bounded_finite || lia).
  apply Z.leb_gt. lia.
Qed.

(** The fuel of a call is never zero. *)
Lemma enough_fuel_S env options : exists fuel, enough_fuel env options = S fuel.
Proof. unfold enough_fuel. destruct (bounded _); eauto. Qed.

Lemma generateProductImage_total env prompt options w :
  bounded (maxRetries_of options) = true ->
  is_Some (fst (generateProductImage env prompt options w)).
Proof.
  intros Hb. rewrite generateProductImage_unfold.
  destruct (enough_fuel_bounded env options Hb) as [-> Hfuel].
  pose proof (fun w => retryLoop_total env prompt options _ 1 None w Hfuel) as Hloop.
  assert (forall w, is_Some (fst (attemptAll env prompt options
                                    (S (Z.to_nat (limit (maxRetries_of options)))) w)))
    as Hall.
  { intros w0. rewrite attemptAll_unfold. destruct (Hloop w0) as [[r|e] ->]; simpl; eauto. }
  repeat case_match; simpl; eauto.
Qed.

(** ** The schedule of a loop: attempts, backoff sleeps, and their number *)

Lemma slept_answered_trace env prompt options a ms w :
  trace (slept Backoff ms (answered env prompt options a w))
  = trace w ++ (gateEvents w
      ++ [Outbound a (now (gate w)) (requestBody prompt options)
            (resolved (answer env prompt options w))]
      ++ [Sleep Backoff ms]).
Proof. rewrite slept_trace, answered_trace. by rewrite <- !app_assoc. Qed.

Lemma retryLoop_schedule env prompt options fuel a le w :
  loop_schedule_at options a w
    (fst (retryLoop env prompt options fuel a le w))
    (snd (retryLoop env prompt options fuel a le w)).
Proof.
  refine (retryLoop_cases env prompt options (fun a _ w x w' => loop_schedule_at options a w x w')
            _ _ _ _ _ fuel a le w); clear; cbv beta; unfold loop_schedule_at.
  - intros a le w. split; [done|]. exists 0%nat, false.
    rewrite since_refl. repeat split; try done; try lia. intros _ _. left. by auto.
  - intros a le w Hgt. split; [done|]. exists 0%nat, false.
    rewrite since_refl. repeat split; try done; try lia. intros _ _. left. by auto.
  - intros a le w url revised Hle Hr.
    set (w1 := answered env prompt options a w).
    set (r := success a url revised).
    assert (exists evs, trace (if useCache_of options
                               then stored (createCacheKey prompt options) r w1 else w1)
                        = trace w ++ (gateEvents w
                            ++ [Outbound a (now (gate w)) (requestBody prompt options) true])
                            ++ evs
                        /\ timeline evs = []) as (evs & Htr & Hevs).
    { destruct (useCache_of options).
      - exists [CacheSet (createCacheKey prompt options)]. split; [|done].
        rewrite stored_trace. unfold w1. rewrite answered_trace, Hr. simpl.
        by rewrite <- !app_assoc.
      - exists []. split; [|done].
        unfold w1. rewrite answered_trace, Hr. simpl. by rewrite <- !app_assoc. }
    assert (apiCalls (if useCache_of options
                      then stored (createCacheKey prompt options) r w1 else w1)
            = S (apiCalls w)) as Hcalls.
    { destruct (useCache_of options); unfold w1, answered; by autorewrite with world. }
    split; [rewrite Htr; by apply prefix_app_r|].
    exists 1%nat, false. rewrite Hcalls.
    rewrite (since_app _ _ _ Htr).
    rewrite !timeline_app, timeline_gateEvents, Hevs. simpl.
    split; [lia|]. split; [intros k Hk; by replace k with a by lia|].
    split; [done|]. split; [done|]. split; [done|]. done.
  - intros a le w e Hle Heq Hr. split.
    + rewrite answered_trace. by apply prefix_app_r.
    + exists 1%nat, false. rewrite (since_app _ _ _ (answered_trace _ _ _ _ _)), Hr.
      rewrite timeline_app, timeline_gateEvents. simpl.
      unfold answered. autorewrite with world.
      split; [lia|]. split; [intros k Hk; by replace k with a by lia|].
      split; [done|]. split; [done|]. split; [|done].
      intros _ _. right. split; [lia|]. by replace (a + Z.of_nat 1 - 1) with a by lia.
  - intros a le w e x w' Hle Hne Hr
      (Hpre & n & rest & Hcalls & Hall & Hret & Hrest & Hend & Hexit & Htl).
    pose proof (slept_answered_trace env prompt options a (2 ^ a * 1000) w) as Htr.
    split; [by eapply prefix_step|].
    rewrite (since_step _ _ _ _ Htr Hpre), !timeline_app, timeline_gateEvents, Htl, Hr.
    cbn [timeline omap list_omap step_of resolved app].
    destruct n as [|n].
    + assert (rest = false) as -> by (destruct rest; [destruct Hrest; [done|lia] | done]).
      assert (is_return x = false) as Hx
        by (destruct (is_return x); [destruct Hret; [done|lia] | done]).
      exists 1%nat, true. rewrite Hcalls. unfold answered. autorewrite with world.
      rewrite Hx. cbn [schedule trailing app].
      replace (a + Z.of_nat 1 - 1) with a by lia.
      split; [lia|]. split; [intros k Hk; by replace k with a by lia|].
      split; [done|]. split; [intros _; split; [lia | done]|]. split; [done|].
      split; [|done].
      intros le' Hle' _. destruct (Hend Hx eq_refl) as [[_ [Hnone|Hgt]]|[Hn _]]; [| |lia].
      * congruence.
      * by replace (a + Z.of_nat 1) with (a + 1) by lia.
    + exists (S (S n)), rest. rewrite Hcalls. unfold answered. autorewrite with world.
      replace (a + Z.of_nat (S (S n)) - 1) with (a + 1 + Z.of_nat (S n) - 1) by lia.
      replace (a + Z.of_nat (S (S n))) with (a + 1 + Z.of_nat (S n)) by lia.
      split; [lia|]. split.
      { intros k Hk. destruct (decide (k = a)) as [->|]; [done|]. apply Hall. lia. }
      split; [intros Hx; destruct (Hret Hx); split; [lia | done]|].
      split; [intros H; destruct (Hrest H); split; [lia | done]|].
      split.
      { intros Hx Hno. destruct (Hend Hx Hno) as [[Hn _]|[_ Hlast]]; [lia|].
        right. split; [lia | done]. }
      split; [done|]. reflexivity.
Qed.

(** A loop that [maxRetries] lets in sends a request. *)
Lemma retryLoop_sends env prompt options fuel a le w :
  Number_le a (maxRetries_of options) = true ->
  1 <= attemptsMade w (snd (retryLoop env prompt options (S fuel) a le w)).
Proof.
  intros Hle. rewrite retryLoop_unfold, Hle. unfold attemptsMade.
  destruct (answer env prompt options w).
  - cbn [snd]. destruct (useCache_of options); unfold answered; autorewrite with world; lia.
  - destruct (Number_eq a (maxRetries_of options)).
    + cbn [snd]. unfold answered. autorewrite with world. lia.
    + destruct (retryLoop_schedule env prompt options fuel (a + 1) (Some e)
                  (slept Backoff (2 ^ a * 1000) (answered env prompt options a w)))
        as (_ & n & _ & Hcalls & _).
      rewrite Hcalls. unfold answered. autorewrite with world. lia.
Qed.

(** ** The call, as a case analysis *)

Section Call.

Variables (env : Env) (prompt : string) (options : ImageGenerationOptions).

Let key : string := createCacheKey prompt options.

Variable Q : World -> option Completion -> World -> Prop.

Hypothesis Q_invalid : forall w,
  truthy prompt = false ->
  Q w (Some (Thrown {| message := "Prompt is required"; cause_status := 400 |})) w.

Hypothesis Q_unconfigured : forall w,
  truthy prompt = true -> ~ configured env ->
  Q w (Some (Thrown {| message := "OpenAI API key not configured"; cause_status := 500 |})) w.

Hypothesis Q_hit : forall w c,
  truthy prompt = true -> configured env -> useCache_of options = true ->
  NodeCache_get (imageCache w) (now w) key = Some c ->
  Q w (Some (Returned (hit c))) (looked key w).

Hypothesis Q_loop : forall w,
  truthy prompt = true -> configured env -> cacheMiss prompt options w ->
  Q w (completion_of env options
         (fst (retryLoop env prompt options (enough_fuel env options) 1 None
                 (entered prompt options w))))
      (snd (retryLoop env prompt options (enough_fuel env options) 1 None
              (entered prompt options w))).

Lemma generateProductImage_cases w :
  Q w (fst (generateProductImage env prompt options w))
      (snd (generateProductImage env prompt options w)).
Proof.
  rewrite generateProductImage_unfold.
  destruct (truthy prompt) eqn:Hp; simpl; [|by apply Q_invalid].
  destruct (truthy (default ""%string (OPENAI_API_KEY env))) eqn:Hk; simpl;
    [|apply Q_unconfigured; [done | unfold configured; by rewrite Hk]].
  specialize (Q_loop w eq_refl Hk). unfold cacheMiss, entered in Q_loop. fold key in Q_loop.
  destruct (useCache_of options) eqn:Hu.
  - fold key. destruct (NodeCache_get (imageCache w) (now w) key) as [c|] eqn:Hget.
    + by apply Q_hit.
    + rewrite attemptAll_unfold. apply Q_loop. by right.
  - rewrite attemptAll_unfold. apply Q_loop. by left.
Qed.

End Call.

Lemma entered_trace prompt options w :
  cacheMiss prompt options w ->
  trace (entered prompt options w) = trace w ++ entryEvents prompt options.
Proof.
  unfold cacheMiss, entered, entryEvents. intros Hmiss.
  destruct (useCache_of options).
  - destruct Hmiss as [|Hnone]; [done|]. by rewrite looked_trace, Hnone.
  - by rewrite app_nil_r.
Qed.

Lemma entered_now prompt options w : now (entered prompt options w) = now w.
Proof. unfold entered. by destruct (useCache_of options). Qed.

Lemma entered_lastApiCall prompt options w :
  lastApiCall (entered prompt options w) = lastApiCall w.
Proof. unfold entered. by destruct (useCache_of options). Qed.

Lemma entered_imageCache prompt options w :
  imageCache (entered prompt options w) = imageCache w.
Proof. unfold entered. by destruct (useCache_of options). Qed.

Lemma entered_apiCalls prompt options w :
  apiCalls (entered prompt options w) = apiCalls w.
Proof. unfold entered. by destruct (useCache_of options). Qed.

#[global] Hint Rewrite entered_now entered_lastApiCall entered_imageCache entered_apiCalls
  : world.


(** ** Facts about schedules *)





(** A result that leaves the loop is a fresh one, numbered by its attempt. *)
Lemma retryLoop_return env prompt options fuel a le w r :
  fst (retryLoop env prompt options fuel a le w) = Some (Return r) ->
  fromCache r = false /\ a <= attempts r /\
  Number_le (attempts r) (maxRetries_of options) = true.
Proof.
  revert r.
  refine (retryLoop_cases env prompt options
            (fun a _ _ x _ => forall r, x = Some (Return r) ->
               fromCache r = false /\ a <= attempts r /\
               Number_le (attempts r) (maxRetries_of options) = true)
            _ _ _ _ _ fuel a le w); clear; cbv beta.
  - by intros.
  - by intros.
  - intros a le w url revised Hle _ r [= <-]. simpl. split; [done|]. split; [lia | done].
  - by intros.
  - intros a le w e x w' _ _ _ IH r Hx. destruct (IH r Hx) as (? & ? & ?).
    split; [done|]. split; [lia | done].
Qed.











(** ** The cache store across a call *)

Lemma quiet_gateEvents w : quiet (gateEvents w).
Proof. unfold quiet, gateEvents. destruct (_ <? _); by repeat constructor. Qed.


Lemma retryLoop_cache env prompt options fuel a le w :
  let x := fst (retryLoop env prompt options fuel a le w) in
  let w' := snd (retryLoop env prompt options fuel a le w) in
  imageCache w' = written prompt options x w w' /\
  exists pre, quiet pre /\ trace w' = trace w ++ pre ++ closing prompt options x w'.
Proof.
  cbv zeta.
  refine (retryLoop_cases env prompt options
            (fun a _ w x w' =>
               imageCache w' = written prompt options x w w' /\
               exists pre, quiet pre /\
                 trace w' = trace w ++ pre ++ closing prompt options x w')
            _ _ _ _ _ fuel a le w); clear; cbv beta.
  - intros a le w. split; [done|]. exists []. split; [constructor|].
    by rewrite !app_nil_r.
  - intros a le w _. split; [done|]. exists []. split; [constructor|].
    by rewrite !app_nil_r.
  - intros a le w url revised _ Hr. unfold written, closing. cbn [attempts success].
    destruct (useCache_of options).
    + split.
      * rewrite stored_imageCache. unfold answered. by autorewrite with world.
      * exists (gateEvents w). split; [apply quiet_gateEvents|].
        rewrite stored_trace, answered_trace, Hr, stored_lastApiCall.
        unfold answered. rewrite sent_lastApiCall, gate_lastApiCall.
        by rewrite <- !app_assoc.
    + split.
      * unfold answered. by autorewrite with world.
      * exists (gateEvents w). split; [apply quiet_gateEvents|].
        rewrite answered_trace, Hr.
        unfold answered. by rewrite sent_lastApiCall, gate_lastApiCall.
  - intros a le w e _ _ Hr. split.
    + unfold answered, written. by autorewrite with world.
    + exists (gateEvents w
              ++ [Outbound a (now (gate w)) (requestBody prompt options) false]).
      split.
      * apply Forall_app. split; [apply quiet_gateEvents | by repeat constructor].
      * rewrite answered_trace, Hr. simpl. by rewrite app_nil_r.
  - intros a le w e x w' _ _ Hr (Hcache & pre & Hpre & Htr). split.
    + rewrite Hcache. unfold written, answered.
      destruct x as [[r|]|]; [destruct (useCache_of options)|..];
        by autorewrite with world.
    + exists ((gateEvents w
               ++ [Outbound a (now (gate w)) (requestBody prompt options) false]
               ++ [Sleep Backoff (2 ^ a * 1000)]) ++ pre).
      split.
      * repeat (apply Forall_app; split); [apply quiet_gateEvents | | | done];
          by repeat constructor.
      * rewrite Htr, slept_answered_trace, Hr. simpl. by rewrite <- !app_assoc.
Qed.

Lemma generateProductImage_cache env prompt options w :
  let c := fst (generateProductImage env prompt options w) in
  let w' := snd (generateProductImage env prompt options w) in
  imageCache w' = written_call prompt options c w w' /\
  exists lk pre,
    (lk = [] \/ useCache_of options = true /\
                exists h, lk = [CacheGet (createCacheKey prompt options) h]) /\
    quiet pre /\
    since w w' = lk ++ pre ++ closing_call prompt options c w'.
Proof.
  cbv zeta.
  apply (generateProductImage_cases env prompt options
    (fun w c w' =>
       imageCache w' = written_call prompt options c w w' /\
       exists lk pre,
         (lk = [] \/ useCache_of options = true /\
                     exists h, lk = [CacheGet (createCacheKey prompt options) h]) /\
         quiet pre /\
         since w w' = lk ++ pre ++ closing_call prompt options c w')); clear w.
  - intros w _. split; [done|]. exists [], []. rewrite since_refl.
    split; [by left|]. split; [constructor | done].
  - intros w _ _. split; [done|]. exists [], []. rewrite since_refl.
    split; [by left|]. split; [constructor | done].
  - intros w c _ _ Hu Hget. split; [done|].
    exists [CacheGet (createCacheKey prompt options) true], [].
    split; [right; eauto|]. split; [constructor|].
    apply since_app. by rewrite looked_trace, Hget.
  - intros w _ _ Hmiss.
    destruct (retryLoop_cache env prompt options (enough_fuel env options) 1 None
                (entered prompt options w)) as (Hcache & pre & Hpre & Htr).
    rewrite entered_trace in Htr by done.
    destruct (fst (retryLoop _ _ _ _ _ _ _)) as [[r|le]|] eqn:Hx; simpl in *.
    + destruct (retryLoop_return _ _ _ _ _ _ _ _ Hx) as [Hr _].
      rewrite Hr. simpl. split.
      * rewrite Hcache. by autorewrite with world.
      * exists (entryEvents prompt options), pre. split; [|split; [done|]].
        -- unfold entryEvents. destruct (useCache_of options); [right; eauto | by left].
        -- apply since_app. by rewrite Htr, <- app_assoc.
    + split; [rewrite Hcache; by autorewrite with world|].
      exists (entryEvents prompt options), pre. split; [|split; [done|]].
      * unfold entryEvents. destruct (useCache_of options); [right; eauto | by left].
      * apply since_app. by rewrite Htr, <- app_assoc.
    + split; [rewrite Hcache; by autorewrite with world|].
      exists (entryEvents prompt options), pre. split; [|split; [done|]].
      * unfold entryEvents. destruct (useCache_of options); [right; eauto | by left].
      * apply since_app. by rewrite Htr, <- app_assoc.
Qed.

(** ** The outbound path *)

(** A call that passes the two checks and finds nothing to return in the
    cache is the retry loop, entered after the cache check. *)
Lemma generateProductImage_loop_path env prompt options w :
  truthy prompt = true -> configured env -> cacheMiss prompt options w ->
  generateProductImage env prompt options w =
  (completion_of env options
     (fst (retryLoop env prompt options (enough_fuel env options) 1 None
             (entered prompt options w))),
   snd (retryLoop env prompt options (enough_fuel env options) 1 None
          (entered prompt options w))).
Proof.
  intros Hp Hk Hmiss. rewrite generateProductImage_unfold, Hp. unfold configured in Hk.
  rewrite Hk. cbn [negb]. unfold entered. unfold cacheMiss in Hmiss.
  destruct (useCache_of options).
  - destruct Hmiss as [|Hnone]; [done|]. rewrite Hnone. by rewrite attemptAll_unfold.
  - by rewrite attemptAll_unfold.
Qed.

(** On that path at least one request is sent, unless maxRetries forbids it. *)
Lemma loop_path_sends env prompt options w :
  truthy prompt = true -> configured env -> cacheMiss prompt options w ->
  Number_le 1 (maxRetries_of options) = true ->
  1 <= attemptsMade w (snd (generateProductImage env prompt options w)).
Proof.
  intros Hp Hk Hmiss Hmr. rewrite generateProductImage_loop_path by done. cbn [snd].
  destruct (enough_fuel_S env options) as [fuel ->].
  pose proof (retryLoop_sends env prompt options fuel 1 None (entered prompt options w) Hmr)
    as Hsent.
  revert Hsent. unfold attemptsMade. by rewrite entered_apiCalls.
Qed.

(** A result is marked as cached only when the cache check found it. *)
Lemma fromCache_inv env prompt options w r :
  fst (generateProductImage env prompt options w) = Some (Returned r) ->
  fromCache r = true ->
  useCache_of options = true /\
  exists c, NodeCache_get (imageCache w) (now w) (createCacheKey prompt options) = Some c /\
            r = hit c /\
            snd (generateProductImage env prompt options w)
            = looked (createCacheKey prompt options) w.
Proof.
  revert r.
  apply (generateProductImage_cases env prompt options
    (fun w c w' => forall r, c = Some (Returned r) -> fromCache r = true ->
       useCache_of options = true /\
       exists c0, NodeCache_get (imageCache w) (now w) (createCacheKey prompt options)
                  = Some c0 /\ r = hit c0 /\
                  w' = looked (createCacheKey prompt options) w)); clear w.
  - by intros.
  - by intros.
  - intros w c _ _ Hu Hget r [= <-] _. eauto.
  - intros w _ _ _ r Hc Hr. exfalso.
    destruct (fst (retryLoop _ _ _ _ _ _ _)) as [[r'|le]|] eqn:Hx; simpl in Hc; try done.
    injection Hc as ->.
    destruct (retryLoop_return _ _ _ _ _ _ _ _ Hx). congruence.
Qed.

(** A fresh result carries the number of the attempt that obtained it. *)
Lemma fresh_inv env prompt options w r :
  fst (generateProductImage env prompt options w) = Some (Returned r) ->
  fromCache r = false ->
  1 <= attempts r /\ Number_le (attempts r) (maxRetries_of options) = true /\
  1 <= attemptsMade w (snd (generateProductImage env prompt options w)).
Proof.
  revert r.
  apply (generateProductImage_cases env prompt options
    (fun w c w' => forall r, c = Some (Returned r) -> fromCache r = false ->
       1 <= attempts r /\ Number_le (attempts r) (maxRetries_of options) = true /\
       1 <= attemptsMade w w')); clear w.
  - by intros.
  - by intros.
  - by intros w c _ _ _ _ r [= <-].
  - intros w _ _ _ r Hc _.
    destruct (fst (retryLoop _ _ _ _ _ _ _)) as [[r'|le]|] eqn:Hx; simpl in Hc; try done.
    injection Hc as ->.
    destruct (retryLoop_return _ _ _ _ _ _ _ _ Hx) as (_ & Ha & Hle).
    split; [done|]. split; [done|].
    destruct (retryLoop_schedule env prompt options (enough_fuel env options) 1 None
                (entered prompt options w)) as (_ & n & rest & Hcalls & _ & Hret & _).
    rewrite Hx in Hret. destruct (Hret eq_refl) as [Hn _].
    unfold attemptsMade. rewrite Hcalls. autorewrite with world. lia.
Qed.

(** ** When no request succeeds *)

Lemma retryLoop_not_entered env prompt options fuel le w :
  Number_le 1 (maxRetries_of options) = false ->
  retryLoop env prompt options (S fuel) 1 le w = (Some (AfterLoop le), w).
Proof. intros Hmr. by rewrite retryLoop_unfold, Hmr. Qed.

(** The three sources of the text that the final error carries. *)
Lemma failureMessage_cases (lastError : option AxiosError) :
  failureMessage lastError =
  match lastError with
  | Some e =>
    match response_error_message e with
    | Some m => if truthy m then m
                else if truthy (error_message e) then error_message e
                else "Unknown error"%string
    | None => if truthy (error_message e) then error_message e else "Unknown error"%string
    end
  | None => "Unknown error"%string
  end.
Proof. destruct lastError as [[[m|] msg]|]; reflexivity. Qed.

(** A loop left towards the code after it has used up its attempts, and
    [lastError] is then the error of the last request, if there was one. *)
Lemma retryLoop_exhausted env prompt options fuel a le w le' :
  maxRetries_of options <> PosInfinity -> 1 <= a ->
  fst (retryLoop env prompt options fuel a le w) = Some (AfterLoop le') ->
  let w' := snd (retryLoop env prompt options fuel a le w) in
  attemptsMade w w' = Z.max 0 (limit (maxRetries_of options) - a + 1) /\
  if Number_le a (maxRetries_of options)
  then is_Some le' /\ le' = lastRejection env (requestBody prompt options) w'
  else le' = le /\ w' = w.
Proof.
  intros Hfin Ha. cbv zeta. revert le'.
  refine (retryLoop_cases env prompt options
            (fun a le w x w' => 1 <= a -> forall le', x = Some (AfterLoop le') ->
               attemptsMade w w' = Z.max 0 (limit (maxRetries_of options) - a + 1) /\
               if Number_le a (maxRetries_of options)
               then is_Some le' /\
                    le' = lastRejection env (requestBody prompt options) w'
               else le' = le /\ w' = w)
            _ _ _ _ _ fuel a le w Ha); clear - Hfin; cbv beta.
  - by intros.
  - intros a le w Hgt Ha le' [= <-]. unfold attemptsMade. rewrite Hgt.
    rewrite Number_le_limit in Hgt by done. apply Z.leb_gt in Hgt. split; [lia | done].
  - by intros.
  - intros a le w e Hle Heq Hr Ha le' [= <-]. rewrite Hle.
    rewrite (Number_eq_limit _ _ Ha Heq). split.
    + unfold attemptsMade, answered. autorewrite with world. lia.
    + split; [by eexists|].
      unfold lastRejection, answered.
      rewrite sent_apiCalls, sent_lastApiCall, gate_lastApiCall. cbn [pred].
      unfold answer, reply in Hr. by rewrite Hr.
  - intros a le w e x w' Hle Hne Hr IH Ha le' Hx.
    destruct (IH ltac:(lia) le' Hx) as [Hn Hlast].
    rewrite Hle. rewrite Number_le_limit in Hle by done. apply Z.leb_le in Hle.
    split.
    + revert Hn. unfold attemptsMade, answered. autorewrite with world. lia.
    + destruct (Number_le (a + 1) (maxRetries_of options)); [done|].
      destruct Hlast as [-> ->]. split; [by eexists|].
      unfold lastRejection, answered.
      rewrite slept_apiCalls, slept_lastApiCall.
      rewrite sent_apiCalls, sent_lastApiCall, gate_lastApiCall. cbn [pred].
      unfold answer, reply in Hr. by rewrite Hr.
Qed.

(** The requests of a loop are answered by the API: when the API is down,
    none of them succeeds. *)
Lemma retryLoop_always_fails env prompt options fuel a le w :
  always_fails env ->
  all_failed (since w (snd (retryLoop env prompt options fuel a le w))).
Proof.
  intros Hdown.
  assert (forall w0, resolved (answer env prompt options w0) = false) as Hanswer
    by (intros w0; apply Hdown).
  cut (exists evs, trace (snd (retryLoop env prompt options fuel a le w)) = trace w ++ evs /\
                   all_failed evs).
  { intros (evs & Htr & Hevs). by rewrite (since_app _ _ _ Htr). }
  refine (retryLoop_cases env prompt options
            (fun _ _ w _ w' => exists evs, trace w' = trace w ++ evs /\ all_failed evs)
            _ _ _ _ _ fuel a le w); clear - Hanswer; cbv beta.
  - intros a le w. exists []. split; [by rewrite app_nil_r | constructor].
  - intros a le w _. exists []. split; [by rewrite app_nil_r | constructor].
  - intros a le w url revised _ Hr. specialize (Hanswer w). by rewrite Hr in Hanswer.
  - intros a le w e _ _ Hr. eexists. split; [apply answered_trace|].
    apply Forall_app. split.
    + unfold gateEvents. destruct (_ <? _); by repeat constructor.
    + repeat constructor. simpl. apply Hanswer.
  - intros a le w e x w' _ _ Hr (evs & Htr & Hevs).
    eexists. split; [rewrite Htr, slept_answered_trace; by rewrite <- app_assoc|].
    repeat (apply Forall_app; split); try done.
    + unfold gateEvents. destruct (_ <? _); by repeat constructor.
    + repeat constructor. simpl. apply Hanswer.
    + by repeat constructor.
Qed.

Lemma generateProductImage_always_fails env prompt options w :
  always_fails env ->
  all_failed (since w (snd (generateProductImage env prompt options w))).
Proof.
  intros Hdown.
  apply (generateProductImage_cases env prompt options
           (fun w _ w' => all_failed (since w w'))); clear w.
  - intros w _. rewrite since_refl. constructor.
  - intros w _ _. rewrite since_refl. constructor.
  - intros w c _ _ _ _. rewrite (since_app _ _ _ (looked_trace _ _)). by repeat constructor.
  - intros w _ _ Hmiss.
    pose proof (retryLoop_always_fails env prompt options (enough_fuel env options) 1 None
                  (entered prompt options w) Hdown) as Hloop.
    destruct (retryLoop_schedule env prompt options (enough_fuel env options) 1 None
                (entered prompt options w)) as [Hpre _].
    rewrite (since_step _ _ _ _ (entered_trace _ _ _ Hmiss) Hpre).
    apply Forall_app. split; [|done].
    unfold entryEvents. destruct (useCache_of options); by repeat constructor.
Qed.

(** With [maxRetries = Infinity] and an API that is down, the loop is
    never left, whatever the fuel. *)
Lemma retryLoop_forever env prompt options fuel a le w :
  maxRetries_of options = PosInfinity -> always_fails env ->
  fst (retryLoop env prompt options fuel a le w) = None.
Proof.
  intros Hinf Hdown.
  assert (forall w0, resolved (answer env prompt options w0) = false) as Hanswer
    by (intros w0; apply Hdown).
  refine (retryLoop_cases env prompt options (fun _ _ _ x _ => x = None)
            _ _ _ _ _ fuel a le w); clear - Hinf Hanswer; cbv beta.
  - done.
  - intros a le w. by rewrite Hinf.
  - intros a le w url revised _ Hr. specialize (Hanswer w). by rewrite Hr in Hanswer.
  - intros a le w e _. by rewrite Hinf.
  - by intros.
Qed.

(** C1, in the form in which it holds.  Take a call with a non-empty
    prompt and a configured credential, whose cache check finds nothing to
    return and none of whose requests succeeds, and let maxRetries be
    bounded: a finite number not above 2^53, -Infinity or NaN.  The call
    makes max(0, floor(maxRetries)) requests, each numbered at most
    maxRetries, and throws an error with status 500 whose message is
    'Failed to generate image after {maxRetries} attempts: {m}': it states
    maxRetries, which is the number of requests made when maxRetries is a
    whole number from 0 on; m is taken from the error of the last request
    when there was one and is 'Unknown error' when there was none. *)
Theorem C1_exhausted_retries env prompt options w :
  truthy prompt = true -> configured env -> cacheMiss prompt options w ->
  bounded (maxRetries_of options) = true ->
  let c := fst (generateProductImage env prompt options w) in
  let w' := snd (generateProductImage env prompt options w) in
  let mr := maxRetries_of options in
  all_failed (since w w') ->
  attemptsMade w w' = limit mr /\
  (forall k, 1 <= k <= attemptsMade w w' -> Number_le k mr = true) /\
  (forall z, mr = whole z -> 0 <= z < 2 ^ 53 ->
     Number_toString env mr = decimal (attemptsMade w w')) /\
  exists lastError,
    (if Number_le 1 mr
     then is_Some lastError /\
          lastError = lastRejection env (requestBody prompt options) w'
     else lastError = None) /\
    c = Some (Thrown
      {| message := ("Failed to generate image after "
                       ++ Number_toString env mr
                       ++ " attempts: " ++ failureMessage lastError)%string;
         cause_status := 500 |}).
Proof.
  intros Hp Hk Hmiss Hb. cbv zeta.
  rewrite generateProductImage_loop_path by done. cbn [fst snd].
  destruct (enough_fuel_bounded env options Hb) as [-> Hfuel].
  pose proof (bounded_finite _ Hb) as Hfin.
  pose proof (limit_nonneg (maxRetries_of options)) as Hlim.
  set (fuel := Z.to_nat (limit (maxRetries_of options))) in *.
  set (w0 := entered prompt options w).
  destruct (retryLoop_total env prompt options fuel 1 None w0 Hfuel) as [x Hx].
  destruct (retryLoop_cache env prompt options (S fuel) 1 None w0) as (_ & pre & _ & Htr).
  rewrite Hx in Htr |- *. unfold w0 in Htr. rewrite entered_trace in Htr by done.
  fold w0 in Htr. intros Hfailed.
  rewrite (since_app _ _ _ (eq_trans Htr (eq_sym (app_assoc _ _ _)))) in Hfailed.
  destruct x as [r|le'].
  - exfalso. apply Forall_app in Hfailed as [_ Hfailed].
    apply Forall_app in Hfailed as [_ Hfailed].
    simpl in Hfailed. by inversion Hfailed.
  - destruct (retryLoop_exhausted env prompt options _ 1 None w0 le' Hfin ltac:(lia) Hx)
      as [Hn Hlast].
    assert (attemptsMade w (snd (retryLoop env prompt options (S fuel) 1 None w0))
            = limit (maxRetries_of options)) as Hmade.
    { revert Hn. unfold attemptsMade, w0. autorewrite with world. lia. }
    rewrite Hmade.
    split; [done|]. split; [|split].
    + intros k Hrange. rewrite Number_le_limit by (done || lia). apply Z.leb_le. lia.
    + intros z Hz Hrange. rewrite Hz, limit_whole, Number_toString_whole by lia.
      f_equal. lia.
    + exists le'. split; [|done].
      destruct (Number_le 1 (maxRetries_of options)); [done | by destruct Hlast].
Qed.

(** The API fails twice; with maxRetries = 2 the call gives up then. *)
Lemma C1_exhausted_retries_witness :
  attemptsMade started
    (snd (generateProductImage api_flaky "Red backpack" (with_maxRetries 2) started)) = 2 /\
  fst (generateProductImage api_flaky "Red backpack" (with_maxRetries 2) started)
  = Some (Thrown
      {| message := "Failed to generate image after 2 attempts: Rate limit exceeded";
         cause_status := 500 |}).
Proof.
  destruct (C1_exhausted_retries api_flaky "Red backpack" (with_maxRetries 2) started)
    as (Hn & _ & _ & lastError & Hlast & Hc).
  - reflexivity.
  - reflexivity.
  - right. reflexivity.
  - reflexivity.
  - vm_compute. repeat constructor.
  - split; [exact Hn|].
    rewrite Hc. destruct Hlast as [_ ->]. vm_compute. reflexivity.
Defined.

(** C1 as stated fails in two ways.  When maxRetries is negative: the
    first call below has a non-empty prompt and a configured credential,
    every request would fail, and the call makes no request at all, which
    is more than maxRetries = -1; its error speaks of -1 attempts and of no
    underlying error.  When maxRetries is Infinity: the second call, with
    the API down for good, is never over, however long it is followed, so
    it throws nothing. *)
Lemma C1_counterexample :
  let c := fst (generateProductImage api_down "Red backpack" (with_maxRetries (-1)) started) in
  let w' := snd (generateProductImage api_down "Red backpack" (with_maxRetries (-1)) started) in
  (truthy "Red backpack" = true /\ configured api_down /\ always_fails api_down /\
   all_failed (since started w') /\
   attemptsMade started w' = 0 /\
   Number_le (attemptsMade started w') (maxRetries_of (with_maxRetries (-1))) = false /\
   c = Some (Thrown
     {| message := "Failed to generate image after -1 attempts: Unknown error";
        cause_status := 500 |})) /\
  (forall fuel,
     fst (generateProductImage_fuel api_down fuel "Red backpack"
            (with_number PosInfinity) started) = None).
Proof.
  cbv zeta. split.
  - split; [reflexivity|]. split; [reflexivity|].
    split; [intros i t b; reflexivity|].
    split; [vm_compute; repeat constructor|].
    split; [vm_compute; reflexivity|].
    split; vm_compute; reflexivity.
  - intros fuel.
    change (generateProductImage_fuel api_down fuel "Red backpack"
              (with_number PosInfinity) started)
      with (attemptAll api_down "Red backpack" (with_number PosInfinity) fuel
              (looked (createCacheKey "Red backpack" (with_number PosInfinity)) started)).
    rewrite attemptAll_unfold, retryLoop_forever; [done | done |].
    intros i t b. reflexivity.
Qed.

(** ** Cache hits *)

Lemma NodeCache_get_live store t key e :
  store !! key = Some e -> expired t e = false ->
  NodeCache_get store t key = Some (payload e).
Proof. intros He Hlive. unfold NodeCache_get. by rewrite He, Hlive. Qed.

Lemma NodeCache_get_expired store t key e :
  store !! key = Some e -> insertedAt e + stdTTL * 1000 < t ->
  NodeCache_get store t key = None.
Proof.
  intros He Hold. unfold NodeCache_get, expired. rewrite He.
  by destruct (Z.ltb_spec (insertedAt e + stdTTL * 1000) t); [|lia].
Qed.

Lemma NodeCache_get_Some store t key v :
  NodeCache_get store t key = Some v ->
  exists e, store !! key = Some e /\ payload e = v /\ t <= insertedAt e + stdTTL * 1000.
Proof.
  unfold NodeCache_get, expired. destruct (store !! key) as [e|]; [|done].
  destruct (Z.ltb_spec (insertedAt e + stdTTL * 1000) t); [done|].
  intros [= <-]. exists e. repeat split; (done || lia).
Qed.

Lemma generateProductImage_hit env prompt options w c :
  truthy prompt = true -> configured env -> useCache_of options = true ->
  NodeCache_get (imageCache w) (now w) (createCacheKey prompt options) = Some c ->
  generateProductImage env prompt options w
  = (Some (Returned (hit c)), looked (createCacheKey prompt options) w).
Proof.
  intros Hp Hk Hu Hget. rewrite generateProductImage_unfold, Hp. unfold configured in Hk.
  rewrite Hk, Hu, Hget. reflexivity.
Qed.

(** After a call that returns, the store holds the returned image under
    the key of the call, provided caching is on. *)
Lemma returned_is_cached env prompt options w r :
  useCache_of options = true ->
  fst (generateProductImage env prompt options w) = Some (Returned r) ->
  let w1 := snd (generateProductImage env prompt options w) in
  exists e, imageCache w1 !! createCacheKey prompt options = Some e /\
            hit (payload e) = hit r /\
            now w1 <= insertedAt e + stdTTL * 1000 /\
            (fromCache r = false -> insertedAt e = now w1).
Proof.
  intros Hu Hc. cbv zeta.
  destruct (generateProductImage_cache env prompt options w) as [Hcache _].
  cbv zeta in Hcache. rewrite Hc in Hcache. unfold written_call in Hcache.
  rewrite Hu in Hcache. destruct (fromCache r) eqn:Hr; simpl in Hcache.
  - destruct (fromCache_inv env prompt options w r Hc Hr) as (_ & c & Hget & -> & ->).
    apply NodeCache_get_Some in Hget as (e & He & <- & Hlive).
    exists e. rewrite looked_imageCache, looked_now. repeat split; done.
  - eexists. rewrite Hcache, lookup_insert_eq. split; [reflexivity|].
    simpl. unfold stdTTL. repeat split; (done || lia).
Qed.

Lemma elapse_now d w : now (elapse d w) = now w + d.
Proof. reflexivity. Qed.

Lemma elapse_imageCache d w : imageCache (elapse d w) = imageCache w.
Proof. reflexivity. Qed.

(** C3. With a non-empty prompt, a configured credential and caching on:
    when the store holds a live entry under the key of the call, the call
    returns the image of that entry with fromCache = true and attempts = 0,
    and does nothing but the one cache read (no request is sent); and when a
    call has returned an image, the same call made again while the entry is
    within its TTL returns that image with fromCache = true and attempts = 0
    without sending a request.  The entry written by a first, fresh call
    lives from the end of that call on. *)
Theorem C3_cache_hit env prompt options w :
  truthy prompt = true -> configured env -> useCache_of options = true ->
  let key := createCacheKey prompt options in
  (forall e, imageCache w !! key = Some e -> expired (now w) e = false ->
     generateProductImage env prompt options w
     = (Some (Returned {| imageUrl := imageUrl (payload e);
                          revisedPrompt := revisedPrompt (payload e);
                          fromCache := true; attempts := 0 |}),
        looked key w) /\
     attemptsMade w (looked key w) = 0 /\
     since w (looked key w) = [CacheGet key true]) /\
  (forall r1,
     fst (generateProductImage env prompt options w) = Some (Returned r1) ->
     let w1 := snd (generateProductImage env prompt options w) in
     exists e,
       imageCache w1 !! key = Some e /\
       (fromCache r1 = false -> insertedAt e = now w1) /\
       forall d, now w1 + d <= insertedAt e + stdTTL * 1000 ->
         let second := generateProductImage env prompt options (elapse d w1) in
         fst second = Some (Returned {| imageUrl := imageUrl r1;
                                        revisedPrompt := revisedPrompt r1;
                                        fromCache := true; attempts := 0 |}) /\
         attemptsMade (elapse d w1) (snd second) = 0).
Proof.
  intros Hp Hk Hu key. split.
  - intros e He Hlive.
    rewrite (generateProductImage_hit env prompt options w (payload e)) by
      (try done; by apply NodeCache_get_live).
    split; [done|]. split.
    + unfold attemptsMade. rewrite looked_apiCalls. lia.
    + apply since_app. rewrite looked_trace.
      fold key. by rewrite (NodeCache_get_live _ _ _ e).
  - intros r1 Hc w1.
    destruct (returned_is_cached env prompt options w r1 Hu Hc) as (e & He & Hsame & _ & Hfresh).
    fold w1 key in He, Hfresh. exists e. split; [done|]. split; [done|].
    intros d Hd second.
    assert (NodeCache_get (imageCache (elapse d w1)) (now (elapse d w1)) key
            = Some (payload e)) as Hget.
    { apply NodeCache_get_live; [by rewrite elapse_imageCache|].
      unfold expired. rewrite elapse_now.
      by destruct (Z.ltb_spec (insertedAt e + stdTTL * 1000) (now w1 + d)); [lia|]. }
    unfold second.
    rewrite (generateProductImage_hit env prompt options (elapse d w1) (payload e)) by done.
    split.
    + cbn [fst]. by rewrite Hsame.
    + unfold attemptsMade. cbn [snd]. rewrite looked_apiCalls. lia.
Qed.

Lemma C3_cache_hit_witness :
  let first := generateProductImage api_up "Red backpack" no_options started in
  let second := generateProductImage api_up "Red backpack" no_options
                  (elapse 3600000 (snd first)) in
  fst first = Some (Returned {| imageUrl := "https://images.example/1.png";
                                revisedPrompt := None;
                                fromCache := false; attempts := 1 |}) /\
  fst second = Some (Returned {| imageUrl := "https://images.example/1.png";
                                 revisedPrompt := None;
                                 fromCache := true; attempts := 0 |}) /\
  attemptsMade (elapse 3600000 (snd first)) (snd second) = 0.
Proof.
  intros first second.
  assert (fst first = Some (Returned {| imageUrl := "https://images.example/1.png";
                                        revisedPrompt := None;
                                        fromCache := false; attempts := 1 |})) as Hfirst
    by (vm_compute; reflexivity).
  split; [exact Hfirst|].
  destruct (C3_cache_hit api_up "Red backpack" no_options started eq_refl eq_refl eq_refl)
    as [_ Hagain].
  destruct (Hagain _ Hfirst) as (e & He & Hfresh & Hsecond).
  apply (Hsecond 3600000).
  rewrite (Hfresh eq_refl). unfold stdTTL. lia.
Defined.

(** A call that comes to the loop with a maxRetries below 1 sends nothing. *)
Lemma loop_path_silent env prompt options w :
  truthy prompt = true -> configured env -> cacheMiss prompt options w ->
  Number_le 1 (maxRetries_of options) = false ->
  generateProductImage env prompt options w
  = (Some (Thrown (exhausted env options None)), entered prompt options w).
Proof.
  intros Hp Hk Hmiss Hmr. rewrite generateProductImage_loop_path by done.
  destruct (enough_fuel_S env options) as [fuel ->].
  by rewrite retryLoop_not_entered.
Qed.

(** C4, in the form in which it holds.  When the entry under the key of a
    call is older than its TTL of 3600 seconds, the cache read of the call
    finds nothing: no result of the call is marked fromCache, and a
    returned result comes from a request of this very call.  A call with a
    non-empty prompt and a configured credential is then the retry loop,
    entered after the cache read that missed: it sends at least one request
    when maxRetries is at least 1, and none when it is not. *)
Theorem C4_expired_entry_not_returned env prompt options w e :
  imageCache w !! createCacheKey prompt options = Some e ->
  insertedAt e + stdTTL * 1000 < now w ->
  let c := fst (generateProductImage env prompt options w) in
  let w' := snd (generateProductImage env prompt options w) in
  stdTTL = 3600 /\
  NodeCache_get (imageCache w) (now w) (createCacheKey prompt options) = None /\
  (forall r, c = Some (Returned r) ->
     fromCache r = false /\ 1 <= attempts r /\ 1 <= attemptsMade w w') /\
  (truthy prompt = true -> configured env ->
   generateProductImage env prompt options w
   = (completion_of env options
        (fst (retryLoop env prompt options (enough_fuel env options) 1 None
                (entered prompt options w))),
      snd (retryLoop env prompt options (enough_fuel env options) 1 None
             (entered prompt options w))) /\
   since w w' = entryEvents prompt options ++ since (entered prompt options w) w' /\
   (Number_le 1 (maxRetries_of options) = true -> 1 <= attemptsMade w w') /\
   (Number_le 1 (maxRetries_of options) = false -> attemptsMade w w' = 0)).
Proof.
  intros He Hold c w'.
  pose proof (NodeCache_get_expired _ _ _ _ He Hold) as Hnone.
  split; [done|]. split; [done|]. split.
  - intros r Hc.
    assert (fromCache r = false) as Hr.
    { destruct (fromCache r) eqn:Hr; [|done].
      destruct (fromCache_inv env prompt options w r Hc Hr) as (_ & c0 & Hget & _).
      congruence. }
    destruct (fresh_inv env prompt options w r Hc Hr) as (Ha & _ & Hn). done.
  - intros Hp Hk.
    assert (cacheMiss prompt options w) as Hmiss by (by right).
    split; [by apply generateProductImage_loop_path|].
    split; [|split; [by apply loop_path_sends|]].
    + unfold w'. rewrite generateProductImage_loop_path by done. cbn [snd].
      destruct (retryLoop_schedule env prompt options (enough_fuel env options) 1 None
                  (entered prompt options w)) as [Hpre _].
      apply (since_step _ _ _ _ (entered_trace _ _ _ Hmiss) Hpre).
    + intros Hmr. unfold w'. rewrite loop_path_silent by done. cbn [snd].
      unfold attemptsMade. rewrite entered_apiCalls. lia.
Qed.

Lemma C4_expired_entry_not_returned_witness :
  NodeCache_get (imageCache stale) (now stale) (createCacheKey "Red backpack" no_options)
  = None /\
  1 <= attemptsMade stale (snd (generateProductImage api_up "Red backpack" no_options stale)).
Proof.
  destruct (C4_expired_entry_not_returned api_up "Red backpack" no_options stale
              {| payload := old_image; insertedAt := 1700000000000 |})
    as (_ & Hnone & _ & Hpath).
  - vm_compute. reflexivity.
  - vm_compute. reflexivity.
  - split; [exact Hnone|].
    destruct (Hpath eq_refl eq_refl) as (_ & _ & Hsent & _).
    apply Hsent. vm_compute. reflexivity.
Defined.

(** C4 as stated fails when maxRetries is below 1.  The store holds an
    entry older than its TTL under the key of the call; the call does not
    return it, but it does not take the outbound path either: with
    maxRetries = 0 it sends no request, and throws. *)
Lemma C4_counterexample :
  let c := fst (generateProductImage api_up "Red backpack" (with_maxRetries 0) stale) in
  let w' := snd (generateProductImage api_up "Red backpack" (with_maxRetries 0) stale) in
  createCacheKey "Red backpack" (with_maxRetries 0)
  = "image_dall-e-3_1024x1024_standard_vivid_red_backpack"%string /\
  imageCache stale !! createCacheKey "Red backpack" (with_maxRetries 0)
  = Some {| payload := old_image; insertedAt := 1700000000000 |} /\
  1700000000000 + stdTTL * 1000 < now stale /\
  since stale w' = [CacheGet (createCacheKey "Red backpack" (with_maxRetries 0)) false] /\
  attemptsMade stale w' = 0 /\
  c = Some (Thrown
    {| message := "Failed to generate image after 0 attempts: Unknown error";
       cause_status := 500 |}).
Proof. vm_compute. repeat split. Qed.



(** C6.  With an empty prompt the call throws at once the error
    'Prompt is required' with status 400 and leaves the world as it was:
    no request, no cache read or write, no sleep, lastApiCall unchanged. *)
Theorem C6_empty_prompt env options w :
  let c := fst (generateProductImage env "" options w) in
  let w' := snd (generateProductImage env "" options w) in
  c = Some (Thrown {| message := "Prompt is required"; cause_status := 400 |}) /\
  w' = w /\
  since w w' = [] /\
  attemptsMade w w' = 0 /\
  lastApiCall w' = lastApiCall w /\
  imageCache w' = imageCache w.
Proof.
  cbv zeta. rewrite generateProductImage_unfold. cbn [truthy String.eqb negb fst snd].
  rewrite since_refl. unfold attemptsMade. repeat split; lia.
Qed.

(** What one call with caching off does to the store and on the network. *)
Lemma generateProductImage_without_cache env prompt options w :
  useCache_of options = false ->
  let c := fst (generateProductImage env prompt options w) in
  let w' := snd (generateProductImage env prompt options w) in
  imageCache w' = imageCache w /\
  quiet (since w w') /\
  (forall r, c = Some (Returned r) -> fromCache r = false /\ 1 <= attemptsMade w w') /\
  (truthy prompt = true -> configured env ->
   (Number_le 1 (maxRetries_of options) = true -> 1 <= attemptsMade w w') /\
   (Number_le 1 (maxRetries_of options) = false -> attemptsMade w w' = 0)).
Proof.
  intros Hu c w'.
  destruct (generateProductImage_cache env prompt options w)
    as (Hcache & lk & pre & Hlk & Hpre & Hsince).
  fold c w' in Hcache, Hsince.
  assert (lk = []) as -> by (destruct Hlk as [|[? _]]; [done | congruence]).
  assert (forall r, c = Some (Returned r) -> fromCache r = false) as Hfresh.
  { intros r Hc. destruct (fromCache r) eqn:Hr; [|done].
    destruct (fromCache_inv env prompt options w r Hc Hr). congruence. }
  split; [|split; [|split]].
  - rewrite Hcache. unfold written_call. rewrite Hu.
    destruct c as [[r|]|]; [|done..]. by rewrite andb_false_r.
  - rewrite Hsince. unfold closing_call. rewrite Hu. simpl.
    apply Forall_app. split; [done|].
    destruct c as [[r|]|]; [|constructor..].
    destruct (fromCache r); by repeat constructor.
  - intros r Hc. split; [by apply Hfresh|].
    by destruct (fresh_inv env prompt options w r Hc (Hfresh r Hc)) as (_ & _ & ?).
  - intros Hp Hk. split; intros Hmr.
    + apply loop_path_sends; try done. by left.
    + unfold w'. rewrite loop_path_silent by (done || by left). cbn [snd].
      unfold attemptsMade. rewrite entered_apiCalls. lia.
Qed.

(** C7, in the form in which it holds.  With useCache = false a call
    neither reads nor writes the store: its trace has no cache operation
    and the store after it is the store before it; what it returns is never
    marked as cached and comes from a request of its own.  With a non-empty
    prompt and a configured credential the call is the retry loop, entered
    at once: it sends at least one request when maxRetries is at least 1,
    and none when it is not.  The same holds of the same call made again,
    any time later. *)
Theorem C7_cache_disabled env prompt options w d :
  useCache_of options = false ->
  let first := generateProductImage env prompt options w in
  let second := generateProductImage env prompt options (elapse d (snd first)) in
  imageCache (snd first) = imageCache w /\
  imageCache (snd second) = imageCache w /\
  quiet (since w (snd first)) /\
  quiet (since (elapse d (snd first)) (snd second)) /\
  (forall r, fst first = Some (Returned r) ->
     fromCache r = false /\ 1 <= attemptsMade w (snd first)) /\
  (forall r, fst second = Some (Returned r) ->
     fromCache r = false /\ 1 <= attemptsMade (elapse d (snd first)) (snd second)) /\
  (truthy prompt = true -> configured env ->
   first = (completion_of env options
              (fst (retryLoop env prompt options (enough_fuel env options) 1 None w)),
            snd (retryLoop env prompt options (enough_fuel env options) 1 None w)) /\
   second = (completion_of env options
               (fst (retryLoop env prompt options (enough_fuel env options) 1 None
                       (elapse d (snd first)))),
             snd (retryLoop env prompt options (enough_fuel env options) 1 None
                    (elapse d (snd first)))) /\
   (Number_le 1 (maxRetries_of options) = true ->
    1 <= attemptsMade w (snd first) /\
    1 <= attemptsMade (elapse d (snd first)) (snd second)) /\
   (Number_le 1 (maxRetries_of options) = false ->
    attemptsMade w (snd first) = 0 /\
    attemptsMade (elapse d (snd first)) (snd second) = 0)).
Proof.
  intros Hu first second.
  destruct (generateProductImage_without_cache env prompt options w Hu)
    as (Hc1 & Hq1 & Hr1 & Hs1).
  destruct (generateProductImage_without_cache env prompt options (elapse d (snd first)) Hu)
    as (Hc2 & Hq2 & Hr2 & Hs2).
  fold first in Hc1, Hq1, Hr1, Hs1. fold second in Hc2, Hq2, Hr2, Hs2.
  rewrite elapse_imageCache, Hc1 in Hc2.
  split; [done|]. split; [done|]. split; [done|]. split; [done|].
  split; [exact Hr1|]. split; [exact Hr2|].
  intros Hp Hk.
  assert (forall w0, cacheMiss prompt options w0) as Hmiss by (intros w0; by left).
  assert (forall w0, entered prompt options w0 = w0) as Hentered
    by (intros w0; unfold entered; by rewrite Hu).
  destruct (Hs1 Hp Hk) as [Hsent1 Hnone1]. destruct (Hs2 Hp Hk) as [Hsent2 Hnone2].
  split; [|split; [|split]].
  - unfold first. rewrite generateProductImage_loop_path by done. by rewrite Hentered.
  - unfold second. rewrite generateProductImage_loop_path by done. by rewrite Hentered.
  - intros Hmr. split; [by apply Hsent1 | by apply Hsent2].
  - intros Hmr. split; [by apply Hnone1 | by apply Hnone2].
Qed.

Lemma C7_cache_disabled_witness :
  let first := generateProductImage api_up "Red backpack" (without_cache 1) started in
  let second := generateProductImage api_up "Red backpack" (without_cache 1)
                  (elapse 5000 (snd first)) in
  imageCache (snd second) = imageCache started /\
  1 <= attemptsMade started (snd first) /\
  1 <= attemptsMade (elapse 5000 (snd first)) (snd second).
Proof.
  destruct (C7_cache_disabled api_up "Red backpack" (without_cache 1) started 5000 eq_refl)
    as (_ & Hstore & _ & _ & _ & _ & Hpath).
  split; [exact Hstore|].
  destruct (Hpath eq_refl eq_refl) as (_ & _ & Hsent & _).
  apply Hsent. vm_compute. reflexivity.
Defined.

(** C7 as stated fails when maxRetries is below 1, and when the prompt is
    empty: with useCache = false and maxRetries = 0 the first call below
    does not take the outbound path, it sends no request and throws; the
    second, with an empty prompt, does nothing at all. *)
Lemma C7_counterexample :
  let c := fst (generateProductImage api_up "Red backpack" (without_cache 0) started) in
  let w' := snd (generateProductImage api_up "Red backpack" (without_cache 0) started) in
  (useCache_of (without_cache 0) = false /\
   attemptsMade started w' = 0 /\
   since started w' = [] /\
   c = Some (Thrown
     {| message := "Failed to generate image after 0 attempts: Unknown error";
        cause_status := 500 |})) /\
  (useCache_of (without_cache 3) = false /\
   generateProductImage api_up "" (without_cache 3) started
   = (Some (Thrown {| message := "Prompt is required"; cause_status := 400 |}), started)).
Proof. vm_compute. repeat split. Qed.

(** C10.  With a non-empty prompt, a configured credential, nothing to
    return from the cache and maxRetries at most 0 (a finite number that is
    0 or less, or -Infinity), the body of the loop is never run: the call
    sends no request, does nothing after the cache check, and throws the
    error with status 500 and message
    'Failed to generate image after {maxRetries} attempts: Unknown error',
    where {maxRetries} is the text that the template makes of the number:
    its decimal numeral when it is a whole number above -2^53. *)
Theorem C10_no_attempt_allowed env prompt options w :
  truthy prompt = true -> configured env -> cacheMiss prompt options w ->
  Number_nonpositive (maxRetries_of options) = true ->
  let c := fst (generateProductImage env prompt options w) in
  let w' := snd (generateProductImage env prompt options w) in
  c = Some (Thrown
    {| message := ("Failed to generate image after "
                     ++ Number_toString env (maxRetries_of options)
                     ++ " attempts: Unknown error")%string;
       cause_status := 500 |}) /\
  (forall z, maxRetries_of options = whole z -> - 2 ^ 53 < z ->
     Number_toString env (maxRetries_of options) = decimal z) /\
  attemptsMade w w' = 0 /\
  w' = entered prompt options w /\
  since w w' = entryEvents prompt options /\
  Forall (fun e => is_outbound e = false) (since w w').
Proof.
  intros Hp Hk Hmiss Hmr. cbv zeta.
  rewrite loop_path_silent by (done || by apply Number_nonpositive_le).
  cbn [fst snd].
  assert (since w (entered prompt options w) = entryEvents prompt options) as Hsince
    by (apply since_app; by apply entered_trace).
  rewrite Hsince. split; [done|]. split; [|repeat split].
  - intros z Hz Hlow. rewrite Hz in Hmr |- *. apply Number_toString_whole.
    unfold Number_nonpositive, whole, Qle_bool, inject_Z in Hmr. cbn [Qnum Qden] in Hmr.
    apply Z.leb_le in Hmr. lia.
  - unfold attemptsMade. rewrite entered_apiCalls. lia.
  - unfold entryEvents. destruct (useCache_of options); by repeat constructor.
Qed.

Lemma C10_no_attempt_allowed_witness :
  fst (generateProductImage api_up "Red backpack" (with_maxRetries 0) started)
  = Some (Thrown
      {| message := "Failed to generate image after 0 attempts: Unknown error";
         cause_status := 500 |}) /\
  attemptsMade started
    (snd (generateProductImage api_up "Red backpack" (with_maxRetries 0) started)) = 0.
Proof.
  destruct (C10_no_attempt_allowed api_up "Red backpack" (with_maxRetries 0) started)
    as (Hc & _ & Hn & _).
  - reflexivity.
  - reflexivity.
  - right. vm_compute. reflexivity.
  - vm_compute. reflexivity.
  - split; [exact Hc | exact Hn].
Defined.

(** ** Cache keys *)

Lemma key_char_spec c :
  (if is_a_z_0_9 (lower_char c) then lower_char c else "_"%char) = key_char c.
Proof. by destruct c as [[] [] [] [] [] [] [] []]. Qed.

Lemma normalise_map_units prompt :
  replace_non_alnum (toLowerCase prompt) = map_units key_char prompt.
Proof.
  unfold replace_non_alnum, toLowerCase.
  induction prompt as [|c s IH]; [done|].
  cbn [map_units]. by rewrite IH, key_char_spec.
Qed.

Lemma substring_map_length f n s :
  String.length (substring 0 n (map_units f s)) = Nat.min n (String.length s).
Proof.
  unfold substring. revert s. induction n as [|n IH]; intros [|c s]; cbn; try done.
  by rewrite IH.
Qed.

Lemma substring_map_get f n s (i : nat) c :
  (i < n)%nat -> String.get i s = Some c ->
  String.get i (substring 0 n (map_units f s)) = Some (f c).
Proof.
  unfold substring. revert s i. induction n as [|n IH]; intros [|c' s] i Hi; cbn; try done;
    try lia.
  destruct i as [|i]; [by intros [= ->]|].
  intros Hc. apply IH; [lia | done].
Qed.

Lemma createCacheKey_fingerprint prompt options :
  createCacheKey prompt options
  = ("image_" ++ Model_str (model_of options) ++ "_" ++ Size_str (size_of options)
       ++ "_" ++ Quality_str (quality_of options) ++ "_" ++ Style_str (style_of options)
       ++ "_" ++ fingerprint prompt)%string.
Proof. reflexivity. Qed.

(** C9.  The key of a call ends with a fingerprint of the prompt: its
    first 50 characters, capitals turned into small letters and every
    character that is then not a small letter or a digit turned into an
    underscore.  So distinct prompts can have the same key under the same
    options, as 'Red Bag!' and 'red bag?' do; and with caching on, a call
    for the second prompt made after a call for the first returns the image
    generated for the first prompt, marked fromCache = true, without sending
    a request. *)
Theorem C9_key_collisions :
  (forall prompt options,
     createCacheKey prompt options
     = ("image_" ++ Model_str (model_of options) ++ "_" ++ Size_str (size_of options)
          ++ "_" ++ Quality_str (quality_of options) ++ "_" ++ Style_str (style_of options)
          ++ "_" ++ fingerprint prompt)%string /\
     String.length (fingerprint prompt) = Nat.min 50 (String.length prompt) /\
     forall (i : nat) c, (i < 50)%nat -> String.get i prompt = Some c ->
       String.get i (fingerprint prompt) = Some (key_char c)) /\
  ("Red Bag!"%string <> "red bag?"%string /\
   forall options, createCacheKey "Red Bag!" options = createCacheKey "red bag?" options) /\
  (let first := generateProductImage api_echo "Red Bag!" no_options started in
   let second := generateProductImage api_echo "red bag?" no_options
                   (elapse 60000 (snd first)) in
   useCache_of no_options = true /\
   fst first = Some (Returned {| imageUrl := "https://images.example/Red Bag!";
                                 revisedPrompt := None;
                                 fromCache := false; attempts := 1 |}) /\
   fst second = Some (Returned {| imageUrl := "https://images.example/Red Bag!";
                                  revisedPrompt := None;
                                  fromCache := true; attempts := 0 |}) /\
   attemptsMade (elapse 60000 (snd first)) (snd second) = 0).
Proof.
  split; [|split].
  - intros prompt options. split; [reflexivity|].
    unfold fingerprint. rewrite normalise_map_units. split.
    + apply substring_map_length.
    + intros i c Hi Hc. by apply substring_map_get.
  - split; [discriminate|]. intros options. reflexivity.
  - cbv zeta. split; [reflexivity|].
    split; [vm_compute; reflexivity|]. split; vm_compute; reflexivity.
Qed.

(** ** The minimum-delay gate *)

Lemma spaced_nil : spaced [].
Proof. by intros i t t'. Qed.

Lemma spaced_snoc l t :
  spaced l -> (forall x, x ∈ l -> x + MIN_DELAY <= t) -> spaced (l ++ [t]).
Proof.
  intros Hl Hlast i a b Ha Hb.
  apply lookup_app_Some in Ha as [Ha|[Hge Ha]].
  - apply lookup_app_Some in Hb as [Hb|[Hge Hb]]; [by eapply Hl|].
    apply list_lookup_singleton_Some in Hb as [_ <-].
    apply Hlast. by eapply list_elem_of_lookup_2.
  - apply list_lookup_singleton_Some in Ha as [Hi _].
    apply lookup_lt_Some in Hb. rewrite length_app in Hb. simpl in Hb. lia.
Qed.

Lemma gated_started (w : World) : trace w = [] -> gated w.
Proof.
  intros Htr. unfold gated. rewrite Htr. split; [apply spaced_nil|].
  intros t Ht. by apply elem_of_nil in Ht.
Qed.

(** Steps that send nothing and leave [lastApiCall] alone keep the gate. *)
Lemma gated_silent (w w' : World) evs :
  trace w' = trace w ++ evs -> outboundStarts evs = [] ->
  lastApiCall w' = lastApiCall w ->
  gated w -> gated w'.
Proof.
  intros Htr Hevs Hlast [Hsp Hle]. unfold gated.
  by rewrite Htr, outboundStarts_app, Hevs, app_nil_r, Hlast.
Qed.

(** One attempt keeps the gate: its request leaves at the new
    [lastApiCall], at least [MIN_DELAY] after the previous one. *)
Lemma gated_answered env prompt options a w :
  gated w -> gated (answered env prompt options a w).
Proof.
  intros [Hsp Hle].
  assert (lastApiCall (answered env prompt options a w) = now (gate w)) as Hlast
    by (unfold answered; by rewrite sent_lastApiCall, gate_lastApiCall).
  unfold gated.
  rewrite Hlast, answered_trace, !outboundStarts_app, outboundStarts_gateEvents.
  cbn [outboundStarts omap list_omap start_of app].
  pose proof (gate_now w) as Hnow. unfold MIN_DELAY in *. split.
  - apply spaced_snoc; [done|]. intros x Hx. specialize (Hle x Hx).
    unfold MIN_DELAY. lia.
  - intros t Ht. apply elem_of_app in Ht as [Ht|Ht].
    + specialize (Hle t Ht). lia.
    + apply list_elem_of_singleton in Ht as ->. lia.
Qed.

Lemma retryLoop_gated env prompt options fuel a le w :
  gated w -> gated (snd (retryLoop env prompt options fuel a le w)).
Proof.
  refine (retryLoop_cases env prompt options (fun _ _ w _ w' => gated w -> gated w')
            _ _ _ _ _ fuel a le w); clear; cbv beta.
  - by intros.
  - by intros.
  - intros a le w url revised _ _ Hg.
    apply (gated_answered env prompt options a) in Hg.
    destruct (useCache_of options); [|done].
    by eapply gated_silent; [apply stored_trace | | | exact Hg].
  - intros a le w e _ _ _. apply gated_answered.
  - intros a le w e x w' _ _ _ IH Hg. apply IH.
    apply (gated_answered env prompt options a) in Hg.
    by eapply gated_silent; [apply slept_trace | | | exact Hg].
Qed.

Lemma generateProductImage_gated env prompt options w :
  gated w -> gated (snd (generateProductImage env prompt options w)).
Proof.
  apply (generateProductImage_cases env prompt options (fun w _ w' => gated w -> gated w')).
  - by intros.
  - by intros.
  - intros w0 c _ _ _ _.
    by eapply gated_silent; [apply looked_trace | |].
  - intros w0 _ _ Hmiss Hg. apply retryLoop_gated.
    eapply gated_silent; [by apply entered_trace | | by rewrite entered_lastApiCall | done].
    unfold entryEvents. by destruct (useCache_of options).
Qed.

Lemma session_gated env calls w : gated w -> gated (session env calls w).
Proof.
  revert w. induction calls as [|[[d prompt] options] calls IH]; intros w Hg; [done|].
  cbn [session]. apply IH, generateProductImage_gated.
  apply (gated_silent w _ []); [by rewrite app_nil_r | done | done | done].
Qed.

(** Every request is sent right after the gate, at the time the gate
    stored in [lastApiCall]. *)
Lemma answered_start env prompt options a w :
  exists ok, trace (answered env prompt options a w)
             = trace (gate w)
                 ++ [Outbound a (lastApiCall (gate w)) (requestBody prompt options) ok].
Proof. eexists. unfold answered. by rewrite sent_trace, gate_lastApiCall. Qed.

(** C8.  enforceRateLimit waits exactly max(0, lastApiCall + MIN_DELAY - now)
    with MIN_DELAY = 1000 ms (one sleep of that length when it is positive,
    none otherwise) and then sets lastApiCall to the time it then is, which
    is at least MIN_DELAY after the previous lastApiCall; every attempt
    passes this gate and sends its request at the time stored; hence, when
    calls are made one after the other from the start of the process, any
    two consecutive requests are sent at least MIN_DELAY apart. *)
Theorem C8_rate_limit :
  MIN_DELAY = 1000 /\
  (forall w,
     let w' := snd (enforceRateLimit w) in
     gateWait w = Z.max 0 (lastApiCall w + MIN_DELAY - now w) /\
     now w' = now w + gateWait w /\
     lastApiCall w' = now w' /\
     lastApiCall w + MIN_DELAY <= lastApiCall w' /\
     since w w' = (if 0 <? gateWait w then [Sleep RateLimitWait (gateWait w)] else []) /\
     imageCache w' = imageCache w /\
     apiCalls w' = apiCalls w) /\
  (forall env prompt options a w,
     exists ok, trace (answered env prompt options a w)
                = trace (snd (enforceRateLimit w))
                    ++ [Outbound a (lastApiCall (snd (enforceRateLimit w)))
                          (requestBody prompt options) ok]) /\
  (forall env prompt options w,
     gated w -> gated (snd (generateProductImage env prompt options w))) /\
  (forall env calls w,
     trace w = [] ->
     forall (i : nat) t t',
       outboundStarts (trace (session env calls w)) !! i = Some t ->
       outboundStarts (trace (session env calls w)) !! S i = Some t' ->
       t + MIN_DELAY <= t').
Proof.
  split; [reflexivity|]. split; [|split; [|split]].
  - intros w w'. unfold w'. fold (gate w).
    rewrite gate_lastApiCall, gate_now, gate_imageCache, gate_apiCalls.
    rewrite (since_app _ _ _ (gate_trace w)).
    unfold gateWait, gateEvents, MIN_DELAY.
    repeat split; try lia.
    destruct (Z.ltb_spec (now w - lastApiCall w) 1000);
      destruct (Z.ltb_spec 0 (Z.max 0 (lastApiCall w + 1000 - now w))); try lia; [|done].
    do 2 f_equal. lia.
  - intros env prompt options a w. apply answered_start.
  - intros env prompt options w. apply generateProductImage_gated.
  - intros env calls w Htr.
    by destruct (session_gated env calls w (gated_started w Htr)) as [Hsp _].
Qed.

(** ** The fuel is immaterial once the loop is left *)

Lemma retryLoop_fuel env prompt options fuel1 : forall fuel2 a le w x,
  fst (retryLoop env prompt options fuel1 a le w) = Some x ->
  (fuel1 <= fuel2)%nat ->
  retryLoop env prompt options fuel2 a le w = retryLoop env prompt options fuel1 a le w.
Proof.
  induction fuel1 as [|fuel1 IH]; intros fuel2 a le w x Hx Hle; [done|].
  destruct fuel2 as [|fuel2]; [lia|].
  revert Hx. rewrite !retryLoop_unfold.
  destruct (Number_le a (maxRetries_of options)); [|done].
  destruct (answer env prompt options w); [done|].
  destruct (Number_eq a (maxRetries_of options)); [done|].
  intros Hx. apply (IH _ _ _ _ x Hx). lia.
Qed.

(** A call that has ended within some fuel ends the same way with more:
    a completion found within the horizon is the completion of the call. *)
Lemma generateProductImage_fuel_more env prompt options fuel1 fuel2 w c :
  fst (generateProductImage_fuel env fuel1 prompt options w) = Some c ->
  (fuel1 <= fuel2)%nat ->
  generateProductImage_fuel env fuel2 prompt options w
  = generateProductImage_fuel env fuel1 prompt options w.
Proof.
  intros Hc Hle.
  assert (forall w0 c0, fst (attemptAll env prompt options fuel1 w0) = Some c0 ->
            attemptAll env prompt options fuel2 w0 = attemptAll env prompt options fuel1 w0)
    as Hsame.
  { intros w0 c0. rewrite !attemptAll_unfold. cbn [fst].
    destruct (fst (retryLoop env prompt options fuel1 1 None w0)) as [x|] eqn:Hx; [|done].
    intros _.
    rewrite (retryLoop_fuel env prompt options fuel1 fuel2 1 None w0 x Hx Hle).
    by rewrite Hx. }
  revert Hc. unfold generateProductImage_fuel.
  destruct (negb (truthy prompt)); [done|].
  destruct (negb (truthy _)); [done|].
  destruct (useCache_of options); [|apply Hsame].
  unfold bind. destruct (imageCache_get _ w) as [[cached|] w0]; [done|]. apply Hsame.
Qed.

(** With a bounded maxRetries the fuel of a call is enough: more of it
    changes nothing. *)
Lemma generateProductImage_fuel_enough env prompt options fuel w :
  bounded (maxRetries_of options) = true ->
  (enough_fuel env options <= fuel)%nat ->
  generateProductImage_fuel env fuel prompt options w
  = generateProductImage env prompt options w.
Proof.
  intros Hb Hfuel.
  destruct (generateProductImage_total env prompt options w Hb) as [c Hc].
  by apply (generateProductImage_fuel_more env prompt options _ _ w c).
Qed.

(** ** Runs of the wrapper *)

(** Two failures, then a success: three attempts, two backoff sleeps of
    2 s and 4 s, and the image ends up in the store. *)
Example third_attempt_succeeds :
  let run := generateProductImage api_flaky "Red backpack" no_options started in
  fst run = Some (Returned {| imageUrl := "https://images.example/1.png";
                              revisedPrompt := None;
                              fromCache := false; attempts := 3 |}) /\
  timeline (trace (snd run))
  = [Attempt 1 false; Wait 2000; Attempt 2 false; Wait 4000; Attempt 3 true] /\
  backoffDelays (trace (snd run)) = [2000; 4000] /\
  outboundStarts (trace (snd run)) = [1700000000000; 1700000002100; 1700000006200] /\
  attemptsMade started (snd run) = 3.
Proof. vm_compute. repeat split. Qed.

(** Three failures with the default options: the error names the three
    attempts and the message of the API; the store stays empty. *)
Example all_attempts_fail :
  let run := generateProductImage api_down "Red backpack" no_options started in
  fst run = Some (Thrown
    {| message := "Failed to generate image after 3 attempts: Rate limit exceeded";
       cause_status := 500 |}) /\
  timeline (trace (snd run))
  = [Attempt 1 false; Wait 2000; Attempt 2 false; Wait 4000; Attempt 3 false] /\
  imageCache (snd run) = ∅.
Proof. vm_compute. repeat split. Qed.

(** A missing credential is reported before anything else is done. *)
Example credential_missing :
  generateProductImage
    {| OPENAI_API_KEY := None; axios_post := axios_post api_up;
       numeral := numeral api_up; horizon := horizon api_up |}
    "Red backpack" no_options started
  = (Some (Thrown {| message := "OpenAI API key not configured"; cause_status := 500 |}),
     started).
Proof. reflexivity. Qed.

(** Two requests in a row wait for the gate: the second call starts 800 ms
    after the request of the first and so sleeps for 200 ms. *)
Example gate_between_calls :
  let w1 := snd (generateProductImage api_up "Red backpack" (without_cache 1) started) in
  let w2 := snd (generateProductImage api_up "Blue mug" (without_cache 1)
                   (elapse 300 w1)) in
  since (elapse 300 w1) w2
  = [Sleep RateLimitWait 200;
     Outbound 1 1700000001000 (requestBody "Blue mug" (without_cache 1)) true].
Proof. vm_compute. reflexivity. Qed.

(** * Further properties of the wrapper *)

(** ** The missing credential *)

(** With a non-empty prompt and no credential the call throws at once the
    error 'OpenAI API key not configured' with status 500: it is not
    retried, and the world is left as it was. *)
Theorem unconfigured_fails_at_once env prompt options w :
  truthy prompt = true -> ~ configured env ->
  generateProductImage env prompt options w
  = (Some (Thrown {| message := "OpenAI API key not configured"; cause_status := 500 |}), w).
Proof.
  intros Hp Hk. rewrite generateProductImage_unfold, Hp. cbn [negb].
  unfold configured in Hk. by destruct (truthy (default ""%string (OPENAI_API_KEY env))).
Qed.

Lemma unconfigured_fails_at_once_witness :
  generateProductImage
    {| OPENAI_API_KEY := Some ""%string; axios_post := axios_post api_up;
       numeral := numeral api_up; horizon := horizon api_up |}
    "Red backpack" no_options started
  = (Some (Thrown {| message := "OpenAI API key not configured"; cause_status := 500 |}),
     started).
Proof.
  apply unconfigured_fails_at_once; [reflexivity | vm_compute; discriminate].
Defined.

(** ** Fresh results *)




(** ** The requests of a call *)

Lemma requests_app tr1 tr2 : requests (tr1 ++ tr2) = requests tr1 ++ requests tr2.
Proof. apply omap_app. Qed.

Lemma requests_gateEvents w : requests (gateEvents w) = [].
Proof. unfold gateEvents. by destruct (_ <? _). Qed.

Lemma requests_entryEvents prompt options : requests (entryEvents prompt options) = [].
Proof. unfold entryEvents. by destruct (useCache_of options). Qed.

Lemma retryLoop_requests env prompt options fuel a le w :
  let w' := snd (retryLoop env prompt options fuel a le w) in
  0 <= attemptsMade w w' /\
  exists evs, trace w' = trace w ++ evs /\
    requests evs = (fun k => (k, requestBody prompt options)) <$> seqZ a (attemptsMade w w').
Proof.
  cbv zeta.
  refine (retryLoop_cases env prompt options
            (fun a _ w _ w' =>
               0 <= attemptsMade w w' /\
               exists evs, trace w' = trace w ++ evs /\
                 requests evs
                 = (fun k => (k, requestBody prompt options)) <$> seqZ a (attemptsMade w w'))
            _ _ _ _ _ fuel a le w); clear; cbv beta.
  - intros a le w. unfold attemptsMade. split; [lia|].
    exists []. rewrite app_nil_r. split; [done|].
    by replace (Z.of_nat (apiCalls w) - Z.of_nat (apiCalls w)) with 0 by lia.
  - intros a le w _. unfold attemptsMade. split; [lia|].
    exists []. rewrite app_nil_r. split; [done|].
    by replace (Z.of_nat (apiCalls w) - Z.of_nat (apiCalls w)) with 0 by lia.
  - intros a le w url revised _ Hr.
    assert (attemptsMade w (if useCache_of options
                            then stored (createCacheKey prompt options)
                                   (success a url revised) (answered env prompt options a w)
                            else answered env prompt options a w) = 1) as ->
      by (unfold attemptsMade, answered; destruct (useCache_of options);
          autorewrite with world; lia).
    split; [lia|]. destruct (useCache_of options).
    + eexists. split; [rewrite stored_trace, answered_trace; by rewrite <- !app_assoc|].
      by rewrite !requests_app, requests_gateEvents.
    + eexists. split; [apply answered_trace|].
      by rewrite !requests_app, requests_gateEvents.
  - intros a le w e _ _ Hr.
    assert (attemptsMade w (answered env prompt options a w) = 1) as ->
      by (unfold attemptsMade, answered; autorewrite with world; lia).
    split; [lia|]. eexists. split; [apply answered_trace|].
    by rewrite !requests_app, requests_gateEvents.
  - intros a le w e x w' _ _ Hr (Hn & evs & Htr & Hreq).
    assert (attemptsMade w w'
            = 1 + attemptsMade (slept Backoff (2 ^ a * 1000)
                                  (answered env prompt options a w)) w') as Hsum
      by (unfold attemptsMade, answered; autorewrite with world; lia).
    rewrite Hsum. split; [lia|].
    eexists. split; [rewrite Htr, slept_answered_trace; by rewrite <- app_assoc|].
    rewrite !requests_app, requests_gateEvents, Hreq.
    rewrite (seqZ_cons a) by lia. rewrite fmap_cons.
    replace (Z.succ a) with (a + 1) by lia.
    replace (Z.pred (1 + attemptsMade (slept Backoff (2 ^ a * 1000)
                                         (answered env prompt options a w)) w'))
      with (attemptsMade (slept Backoff (2 ^ a * 1000)
                            (answered env prompt options a w)) w') by lia.
    reflexivity.
Qed.

(** The requests of a call are numbered 1, 2, ... and all carry the same
    body: the prompt as the caller gave it, in full, one image asked for as
    a URL, and quality and style for 'dall-e-3' only. *)
Theorem requests_of_a_call env prompt options w :
  let w' := snd (generateProductImage env prompt options w) in
  let body := requestBody prompt options in
  requests (since w w') = (fun k => (k, body)) <$> seqZ 1 (attemptsMade w w') /\
  body_prompt body = prompt /\
  body_n body = 1 /\
  body_response_format body = "url"%string /\
  (model_of options = dall_e_3 ->
   body_quality body = Some (quality_of options) /\ body_style body = Some (style_of options)) /\
  (model_of options = dall_e_2 -> body_quality body = None /\ body_style body = None).
Proof.
  intros w' body. split.
  - unfold w', body.
    apply (generateProductImage_cases env prompt options
      (fun w _ w' => requests (since w w')
                     = (fun k => (k, requestBody prompt options))
                         <$> seqZ 1 (attemptsMade w w'))); clear.
    + intros w _. rewrite since_refl. unfold attemptsMade.
      by replace (Z.of_nat (apiCalls w) - Z.of_nat (apiCalls w)) with 0 by lia.
    + intros w _ _. rewrite since_refl. unfold attemptsMade.
      by replace (Z.of_nat (apiCalls w) - Z.of_nat (apiCalls w)) with 0 by lia.
    + intros w c _ _ _ _. rewrite (since_app _ _ _ (looked_trace _ _)).
      unfold attemptsMade. rewrite looked_apiCalls.
      by replace (Z.of_nat (apiCalls w) - Z.of_nat (apiCalls w)) with 0 by lia.
    + intros w _ _ Hmiss.
      destruct (retryLoop_requests env prompt options (enough_fuel env options) 1 None
                  (entered prompt options w)) as (_ & evs & Htr & Hreq).
      rewrite entered_trace in Htr by done. rewrite <- app_assoc in Htr.
      rewrite (since_app _ _ _ Htr), requests_app, requests_entryEvents, Hreq.
      unfold attemptsMade. by rewrite entered_apiCalls.
  - unfold body, requestBody. cbn [body_prompt body_n body_response_format
                                   body_quality body_style].
    split; [reflexivity|]. split; [reflexivity|]. split; [reflexivity|].
    split; intros ->; split; reflexivity.
Qed.

(** ** How long a call blocks *)

Lemma answered_later env prompt options a w :
  now w <= now (answered env prompt options a w).
Proof. unfold answered. rewrite sent_now, gate_now. lia. Qed.

Lemma retryLoop_duration env prompt options fuel a le w :
  0 <= a ->
  let w' := snd (retryLoop env prompt options fuel a le w) in
  now w <= now w' /\
  0 <= attemptsMade w w' /\
  (1 <= attemptsMade w w' ->
   now w + (2 ^ (a + attemptsMade w w' - 1) - 2 ^ a) * 1000 <= now w').
Proof.
  intros Ha. cbv zeta.
  refine (retryLoop_cases env prompt options
            (fun a _ w _ w' => 0 <= a ->
               now w <= now w' /\
               0 <= attemptsMade w w' /\
               (1 <= attemptsMade w w' ->
                now w + (2 ^ (a + attemptsMade w w' - 1) - 2 ^ a) * 1000 <= now w'))
            _ _ _ _ _ fuel a le w Ha); clear; cbv beta.
  - intros a le w _. unfold attemptsMade. repeat split; lia.
  - intros a le w _ _. unfold attemptsMade. repeat split; lia.
  - intros a le w url revised _ _ Ha.
    pose proof (answered_later env prompt options a w) as Hlater.
    assert (attemptsMade w (if useCache_of options
                            then stored (createCacheKey prompt options)
                                   (success a url revised) (answered env prompt options a w)
                            else answered env prompt options a w) = 1) as ->
      by (unfold attemptsMade, answered; destruct (useCache_of options);
          autorewrite with world; lia).
    replace (a + 1 - 1) with a by lia.
    destruct (useCache_of options); rewrite ?stored_now; repeat split; lia.
  - intros a le w e _ _ _ Ha.
    pose proof (answered_later env prompt options a w) as Hlater.
    assert (attemptsMade w (answered env prompt options a w) = 1) as ->
      by (unfold attemptsMade, answered; autorewrite with world; lia).
    replace (a + 1 - 1) with a by lia. repeat split; lia.
  - intros a le w e x w' _ _ _ IH Ha.
    pose proof (answered_later env prompt options a w) as Hlater.
    destruct IH as (Hmono & Hn & Hwait); [lia|].
    rewrite slept_now in Hmono, Hwait.
    assert (attemptsMade w w'
            = 1 + attemptsMade (slept Backoff (2 ^ a * 1000)
                                  (answered env prompt options a w)) w') as ->
      by (unfold attemptsMade, answered; autorewrite with world; lia).
    set (n := attemptsMade _ w') in *.
    assert (2 ^ (a + 1) = 2 * 2 ^ a) as Hpow by (rewrite Z.pow_add_r by lia; lia).
    assert (0 < 2 ^ a) by (apply Z.pow_pos_nonneg; lia).
    split; [lia|]. split; [lia|]. intros _.
    destruct (Z.le_gt_cases 1 n) as [Hpos|Hzero].
    + specialize (Hwait Hpos). rewrite Hpow in Hwait.
      replace (a + (1 + n) - 1) with (a + 1 + n - 1) by lia. lia.
    + replace (a + (1 + n) - 1) with a by lia. lia.
Qed.

(** A call never ends before it began, and one that has sent n requests,
    n at most 22, has blocked its caller for at least the backoff sleeps
    between them, 2 + 4 + ... + 2^(n-1) seconds: six seconds at least for a
    call that gives up after the default three attempts.  (The delays of
    these sleeps are within what the timer accepts; the one after attempt
    22 is not.) *)
Theorem call_takes_its_backoffs env prompt options w :
  let w' := snd (generateProductImage env prompt options w) in
  now w <= now w' /\
  (1 <= attemptsMade w w' <= 22 ->
   2 ^ (attemptsMade w w' - 1) * 1000 <= 2 ^ 31 - 1 /\
   now w + (2 ^ attemptsMade w w' - 2) * 1000 <= now w').
Proof.
  cbv zeta.
  apply (generateProductImage_cases env prompt options
    (fun w _ w' => now w <= now w' /\
       (1 <= attemptsMade w w' <= 22 ->
        2 ^ (attemptsMade w w' - 1) * 1000 <= 2 ^ 31 - 1 /\
        now w + (2 ^ attemptsMade w w' - 2) * 1000 <= now w'))); clear w.
  - intros w _. unfold attemptsMade. split; lia.
  - intros w _ _. unfold attemptsMade. split; lia.
  - intros w c _ _ _ _. unfold attemptsMade. rewrite looked_now, looked_apiCalls. split; lia.
  - intros w _ _ _.
    destruct (retryLoop_duration env prompt options (enough_fuel env options) 1 None
                (entered prompt options w)) as (Hmono & _ & Hwait); [lia|].
    rewrite entered_now in Hmono, Hwait.
    assert (forall w', attemptsMade (entered prompt options w) w' = attemptsMade w w') as Hsame
      by (intros w'; unfold attemptsMade; by rewrite entered_apiCalls).
    rewrite Hsame in Hwait. split; [done|]. intros [Hn Hmax]. split.
    + assert (2 ^ (attemptsMade w (snd (retryLoop env prompt options (enough_fuel env options)
                                          1 None (entered prompt options w))) - 1)
              <= 2 ^ 21) as Hpow by (apply Z.pow_le_mono_r; lia).
      lia.
    + specialize (Hwait Hn).
      replace (1 + attemptsMade w (snd (retryLoop env prompt options (enough_fuel env options)
                                          1 None (entered prompt options w))) - 1)
        with (attemptsMade w (snd (retryLoop env prompt options (enough_fuel env options)
                                      1 None (entered prompt options w)))) in Hwait by lia.
      exact Hwait.
Qed.

Lemma call_takes_its_backoffs_witness :
  now started + 6000
  <= now (snd (generateProductImage api_down "Red backpack" no_options started)).
Proof.
  destruct (call_takes_its_backoffs api_down "Red backpack" no_options started) as [_ Hwait].
  assert (attemptsMade started
            (snd (generateProductImage api_down "Red backpack" no_options started)) = 3) as Hn
    by (vm_compute; reflexivity).
  rewrite Hn in Hwait. apply Hwait. lia.
Defined.

(** ** What a key determines *)

Lemma Model_str_inj m m' x y :
  (Model_str m ++ "_" ++ x = Model_str m' ++ "_" ++ y)%string -> m = m' /\ x = y.
Proof. destruct m, m'; cbn; intros [=]; by subst. Qed.

Lemma Size_str_inj s s' x y :
  (Size_str s ++ "_" ++ x = Size_str s' ++ "_" ++ y)%string -> s = s' /\ x = y.
Proof. destruct s, s'; cbn; intros [=]; by subst. Qed.

Lemma Quality_str_inj q q' x y :
  (Quality_str q ++ "_" ++ x = Quality_str q' ++ "_" ++ y)%string -> q = q' /\ x = y.
Proof. destruct q, q'; cbn; intros [=]; by subst. Qed.

Lemma Style_str_inj s s' x y :
  (Style_str s ++ "_" ++ x = Style_str s' ++ "_" ++ y)%string -> s = s' /\ x = y.
Proof. destruct s, s'; cbn; intros [=]; by subst. Qed.

(** Two calls have the same key exactly when they agree on the model, the
    size, the quality and the style in force (defaults included) and their
    prompts have the same fingerprint; their requests then differ by the
    text of the prompt at most. *)
Theorem same_key_same_request prompt prompt' options options' :
  (createCacheKey prompt options = createCacheKey prompt' options' <->
   model_of options = model_of options' /\
   size_of options = size_of options' /\
   quality_of options = quality_of options' /\
   style_of options = style_of options' /\
   fingerprint prompt = fingerprint prompt') /\
  (createCacheKey prompt options = createCacheKey prompt' options' ->
   requestBody prompt options = requestBody prompt options').
Proof.
  assert (createCacheKey prompt options = createCacheKey prompt' options' ->
          model_of options = model_of options' /\
          size_of options = size_of options' /\
          quality_of options = quality_of options' /\
          style_of options = style_of options' /\
          fingerprint prompt = fingerprint prompt') as Hinj.
  { rewrite !createCacheKey_fingerprint. intros Hkey.
    cbn [String.append] in Hkey. injection Hkey as Hkey.
    apply Model_str_inj in Hkey as [Hm Hkey].
    apply Size_str_inj in Hkey as [Hs Hkey].
    apply Quality_str_inj in Hkey as [Hq Hkey].
    apply Style_str_inj in Hkey as [Hst Hkey]. done. }
  split; [split; [exact Hinj|]|].
  - intros (Hm & Hs & Hq & Hst & Hf). rewrite !createCacheKey_fingerprint.
    by rewrite Hm, Hs, Hq, Hst, Hf.
  - intros Hkey. destruct (Hinj Hkey) as (Hm & Hs & Hq & Hst & _).
    unfold requestBody. by rewrite Hm, Hs, Hq, Hst.
Qed.

(** ** Fingerprints *)

Lemma key_char_idempotent c : key_char (key_char c) = key_char c.
Proof. by destruct c as [[] [] [] [] [] [] [] []]. Qed.

Lemma key_char_lower c : key_char (lower_char c) = key_char c.
Proof. by destruct c as [[] [] [] [] [] [] [] []]. Qed.

Lemma key_char_alphabet c : is_a_z_0_9 (key_char c) = true \/ key_char c = "_"%char.
Proof. destruct c as [[] [] [] [] [] [] [] []]; (by left) || (by right). Qed.

Lemma fingerprint_map prompt : fingerprint prompt = substring 0 50 (map_units key_char prompt).
Proof. unfold fingerprint. by rewrite normalise_map_units. Qed.

Lemma substring_map_prefix f n s t :
  (n <= String.length s)%nat ->
  substring 0 n (map_units f (s ++ t)%string) = substring 0 n (map_units f s).
Proof.
  unfold substring. revert s. induction n as [|n IH]; intros s Hn.
  - by destruct (map_units f (s ++ t)%string), (map_units f s).
  - destruct s as [|c s]; cbn in Hn; [lia|].
    change (String c s +:+ t) with (String c (s +:+ t)).
    cbn [map_units Stdlib.Strings.String.substring].
    rewrite IH; [done | lia].
Qed.

Lemma substring_map_twice f g n s :
  (forall c, f (g c) = g c) ->
  substring 0 n (map_units f (substring 0 n (map_units g s))) = substring 0 n (map_units g s).
Proof.
  intros Hfg. unfold substring. revert s. induction n as [|n IH]; intros [|c s]; cbn;
    try done.
  by rewrite IH, Hfg.
Qed.

Lemma substring_map_compose f g n s :
  (forall c, f (g c) = f c) ->
  substring 0 n (map_units f (map_units g s)) = substring 0 n (map_units f s).
Proof.
  intros Hfg. unfold substring. revert s. induction n as [|n IH]; intros [|c s]; cbn;
    try done.
  by rewrite IH, Hfg.
Qed.

Lemma substring_map_chars f n s (i : nat) c :
  String.get i (substring 0 n (map_units f s)) = Some c -> exists c0, c = f c0.
Proof.
  unfold substring. revert s i. induction n as [|n IH]; intros [|c' s] i; cbn; try done.
  destruct i as [|i]; [intros [= <-]; eauto | apply IH].
Qed.

(** The key of a call does not see the case of the prompt, nor what
    follows its fiftieth character, and is made of small letters, digits and
    underscores only after the options; a fingerprint is its own
    fingerprint. *)
Theorem fingerprint_laws :
  (forall prompt options,
     createCacheKey (toLowerCase prompt) options = createCacheKey prompt options) /\
  (forall prompt more options,
     (50 <= String.length prompt)%nat ->
     createCacheKey (prompt ++ more)%string options = createCacheKey prompt options) /\
  (forall prompt, fingerprint (fingerprint prompt) = fingerprint prompt) /\
  (forall prompt (i : nat) c,
     String.get i (fingerprint prompt) = Some c -> is_a_z_0_9 c = true \/ c = "_"%char).
Proof.
  split; [|split; [|split]].
  - intros prompt options. rewrite !createCacheKey_fingerprint. do 9 f_equal.
    rewrite !fingerprint_map. unfold toLowerCase.
    apply substring_map_compose, key_char_lower.
  - intros prompt more options Hlen. rewrite !createCacheKey_fingerprint. do 9 f_equal.
    rewrite !fingerprint_map. by apply substring_map_prefix.
  - intros prompt. rewrite !fingerprint_map.
    apply substring_map_twice, key_char_idempotent.
  - intros prompt i c. rewrite fingerprint_map. intros Hc.
    apply substring_map_chars in Hc as [c0 ->]. apply key_char_alphabet.
Qed.

Lemma fingerprint_laws_witness :
  createCacheKey "Professional product photography of a red backpack, white background"
    no_options
  = createCacheKey "Professional product photography of a red backpack" no_options.
Proof.
  destruct fingerprint_laws as (_ & Hprefix & _).
  apply (Hprefix "Professional product photography of a red backpack"%string
           ", white background"%string no_options).
  vm_compute. lia.
Defined.

(** ** Clearing the cache *)

(** After [clearCache] the store is empty, so the next call, whenever it
    comes and whatever it asks for, is not served from the cache: a result
    it returns is fresh and has cost a request.  The gate is not reset:
    [lastApiCall] stays, and requests remain spaced. *)
Theorem clearCache_forces_requests w :
  let w1 := snd (clearCache w) in
  imageCache w1 = ∅ /\
  lastApiCall w1 = lastApiCall w /\
  (gated w -> gated w1) /\
  forall env prompt options d r,
    fst (generateProductImage env prompt options (elapse d w1)) = Some (Returned r) ->
    fromCache r = false /\
    1 <= attemptsMade (elapse d w1)
           (snd (generateProductImage env prompt options (elapse d w1))).
Proof.
  intros w1. split; [reflexivity|]. split; [reflexivity|]. split; [by intros|].
  intros env prompt options d r Hc.
  assert (fromCache r = false) as Hr.
  { destruct (fromCache r) eqn:Hr; [|done].
    destruct (fromCache_inv env prompt options _ r Hc Hr) as (_ & c & Hget & _).
    unfold NodeCache_get in Hget. rewrite elapse_imageCache in Hget.
    change (imageCache w1) with (∅ : gmap string CacheEntry) in Hget.
    by rewrite lookup_empty in Hget. }
  split; [done|]. by destruct (fresh_inv env prompt options _ r Hc Hr) as (_ & _ & ?).
Qed.

Lemma clearCache_forces_requests_witness :
  let cached := snd (generateProductImage api_up "Red backpack" no_options started) in
  let again := generateProductImage api_up "Red backpack" no_options
                 (elapse 1000 (snd (clearCache cached))) in
  imageCache cached <> ∅ /\
  1 <= attemptsMade (elapse 1000 (snd (clearCache cached))) (snd again).
Proof.
  intros cached again. split.
  - intros Hempty. assert (imageCache cached !! createCacheKey "Red backpack" no_options
                           = None) as Hnone by (by rewrite Hempty).
    vm_compute in Hnone. discriminate.
  - destruct (clearCache_forces_requests cached) as (_ & _ & _ & Hnext).
    eapply Hnext. vm_compute. reflexivity.
Defined.

(** ** The route and the wrapper *)

Lemma productPrompt_truthy product : truthy (productPrompt product) = true.
Proof. reflexivity. Qed.

Lemma or_else_truthy a b : truthy b = true -> truthy (or_else a b) = true.
Proof. intros Hb. unfold or_else. destruct a as [s|]; [|done]. by destruct (truthy s) eqn:Hs. Qed.

Lemma routePrompt_truthy product req : truthy (routePrompt product req) = true.
Proof. apply or_else_truthy, productPrompt_truthy. Qed.

(** With a non-empty prompt, what the wrapper throws has status 500 and a
    message of its own. *)
Lemma thrown_with_prompt env prompt options w e :
  truthy prompt = true ->
  fst (generateProductImage env prompt options w) = Some (Thrown e) ->
  cause_status e = 500 /\ truthy (message e) = true.
Proof.
  intros Hp. revert e.
  apply (generateProductImage_cases env prompt options
    (fun _ c _ => forall e, c = Some (Thrown e) ->
       cause_status e = 500 /\ truthy (message e) = true)); clear w.
  - intros w Hp'. congruence.
  - by intros w _ _ e [= <-].
  - by intros.
  - intros w _ _ _ e.
    destruct (fst (retryLoop _ _ _ _ _ _ _)) as [[r|le]|]; cbn [completion_of]; try done.
    by intros [= <-].
Qed.

Lemma route_unfold env findById req w :
  generateProductImageRoute env findById req w =
  if negb (truthy (default ""%string (OPENAI_API_KEY env))) then
    (Some {| status := 500;
             body := KeyNotConfigured "OpenAI API key not configured"
                       "Server configuration error" |}, w)
  else
    match findById (req_productId req) with
    | Fails error =>
      (Some {| status := 500;
               body := GenerationFailed "Failed to generate image"
                         (or_else (Some (error_text error)) "Unknown error")
                         "Enhanced OpenAI DALL-E 3 with retry & caching" |}, w)
    | NotFound => (Some {| status := 404; body := ProductNotFound "Product not found" |}, w)
    | Found product =>
      let prompt := routePrompt product req in
      let options := routeOptions req in
      let run := generateProductImage env prompt options w in
      (match fst run with
       | None => None
       | Some (Returned result) =>
         Some {| status := 200;
                 body := ImageGenerated
                   "Image generated successfully with enhanced AI utils"
                   (imageUrl result) prompt (revisedPrompt result) (req_productId req)
                   {| meta_fromCache := fromCache result;
                      meta_attempts := attempts result;
                      meta_model := Model_str (model_of options);
                      meta_size := Size_str (size_of options);
                      meta_quality := Quality_str (quality_of options);
                      meta_style := Style_str (style_of options) |} |}
       | Some (Thrown e) =>
         Some {| status := status_or_500 (cause_status e);
                 body := GenerationFailed "Failed to generate image"
                           (or_else (Some (message e)) "Unknown error")
                           "Enhanced OpenAI DALL-E 3 with retry & caching" |}
       end, snd run)
    end.
Proof.
  unfold generateProductImageRoute.
  destruct (negb (truthy _)); [reflexivity|].
  destruct (findById (req_productId req)) as [product| |reason]; try reflexivity.
  unfold bind, routePrompt, routeOptions. cbv zeta.
  destruct (generateProductImage env _ _ w) as [[[r|e]|] w']; reflexivity.
Qed.

(** An answer of the route has status 200, 404 or 500 and never 400: the
    prompt it hands to the wrapper is never empty.  It has status 404
    exactly when the credential is configured and the product is not found.
    Unless the credential is configured and the product found, the route
    answers without asking anything of the wrapper, and the world stays as
    it was.  When the product is found the route answers if maxRetries is
    bounded; it never does if maxRetries is Infinity, the API is down and
    the cache has nothing to return.
    Requests handled one after the other leave the requests to the API
    spaced. *)
Theorem route_statuses env findById req w :
  let res := fst (generateProductImageRoute env findById req w) in
  let w' := snd (generateProductImageRoute env findById req w) in
  (forall r, res = Some r ->
     (status r = 200 \/ status r = 404 \/ status r = 500) /\
     (status r = 404 <-> configured env /\ findById (req_productId req) = NotFound)) /\
  ((forall product, configured env -> findById (req_productId req) <> Found product) ->
   is_Some res /\ w' = w) /\
  (bounded (maxRetries_of (routeOptions req)) = true -> is_Some res) /\
  (forall product,
     configured env -> findById (req_productId req) = Found product ->
     maxRetries_of (routeOptions req) = PosInfinity -> always_fails env ->
     cacheMiss (routePrompt product req) (routeOptions req) w ->
     res = None) /\
  (gated w -> gated w').
Proof.
  cbv zeta. rewrite route_unfold. unfold configured.
  destruct (truthy (default ""%string (OPENAI_API_KEY env))) eqn:Hk; cbn [negb].
  2:{ cbn [fst snd]. split; [|split; [|split; [|split]]]; try done; try by eauto.
      intros r [= <-]. cbn. split; [auto|]. split; [lia | by intros [? _]]. }
  destruct (findById (req_productId req)) as [product| |reason] eqn:Hfind.
  - cbv zeta. cbn [fst snd].
    split; [|split; [|split; [|split]]].
    + intros r Hres.
      destruct (fst (generateProductImage env (routePrompt product req) (routeOptions req) w))
        as [[result|e]|] eqn:Hc; [| |done].
      * injection Hres as <-. cbn. split; [auto|]. split; [lia | by intros [_ ?]].
      * destruct (thrown_with_prompt env _ _ w e (routePrompt_truthy product req) Hc)
          as [Hstatus _].
        injection Hres as <-. rewrite Hstatus. cbn. split; [auto|].
        split; [lia | by intros [_ ?]].
    + intros Hnot. by destruct (Hnot product).
    + intros Hb.
      destruct (generateProductImage_total env (routePrompt product req) (routeOptions req)
                  w Hb) as [[result|e] ->]; by eexists.
    + intros product' _ [= <-] Hinf Hdown Hmiss.
      rewrite generateProductImage_loop_path by (done || apply routePrompt_truthy).
      cbn [fst]. by rewrite retryLoop_forever.
    + apply generateProductImage_gated.
  - cbn [fst snd]. split; [|split; [|split; [|split]]]; try done; try by eauto.
    intros r [= <-]. cbn. split; [auto|]. by split.
  - cbn [fst snd]. split; [|split; [|split; [|split]]]; try done; try by eauto.
    intros r [= <-]. cbn. split; [auto|]. split; [lia | by intros [_ ?]].
Qed.

Lemma route_statuses_witness :
  snd (generateProductImageRoute api_up (fun _ => NotFound)
         {| req_productId := Some "64b7f0c2a1d3e4f5a6b7c8d9"%string;
            req_prompt := None; req_options := None |} started)
  = started.
Proof.
  destruct (route_statuses api_up (fun _ => NotFound)
              {| req_productId := Some "64b7f0c2a1d3e4f5a6b7c8d9"%string;
                 req_prompt := None; req_options := None |} started) as (_ & Hsame & _).
  apply Hsame. intros product _. discriminate.
Defined.

(** For a product that is found, the route is one call of the wrapper,
    with the prompt of the request when it has a non-empty one and a prompt
    made up from the name and the description of the product otherwise.
    What the wrapper returns is answered with status 200, the image, the
    prompt used, and fromCache and attempts as the wrapper reports them;
    what it throws is answered with status 500 and the message thrown. *)
Theorem route_runs_wrapper env findById req w product :
  configured env -> findById (req_productId req) = Found product ->
  let prompt := routePrompt product req in
  let options := routeOptions req in
  let run := generateProductImage env prompt options w in
  (forall p, req_prompt req = Some p -> truthy p = true -> prompt = p) /\
  (req_prompt req = None \/ req_prompt req = Some ""%string ->
   prompt = ("Professional product photography of " ++ product_name product ++ ", "
               ++ product_description product
               ++ ", white background, high quality, e-commerce style, "
               ++ "studio lighting, commercial photo")%string) /\
  snd (generateProductImageRoute env findById req w) = snd run /\
  (forall result, fst run = Some (Returned result) ->
     fst (generateProductImageRoute env findById req w)
     = Some {| status := 200;
               body := ImageGenerated "Image generated successfully with enhanced AI utils"
                         (imageUrl result) prompt (revisedPrompt result) (req_productId req)
                         {| meta_fromCache := fromCache result;
                            meta_attempts := attempts result;
                            meta_model := Model_str (model_of options);
                            meta_size := Size_str (size_of options);
                            meta_quality := Quality_str (quality_of options);
                            meta_style := Style_str (style_of options) |} |}) /\
  (forall e, fst run = Some (Thrown e) ->
     fst (generateProductImageRoute env findById req w)
     = Some {| status := 500;
               body := GenerationFailed "Failed to generate image" (message e)
                         "Enhanced OpenAI DALL-E 3 with retry & caching" |}).
Proof.
  intros Hk Hfind prompt options run.
  rewrite route_unfold. unfold configured in Hk. rewrite Hk, Hfind. cbn [negb]. cbv zeta.
  fold prompt options run. cbn [fst snd].
  split; [|split; [|split; [done|split]]].
  - intros p Hp Htruthy. unfold prompt, routePrompt, or_else. by rewrite Hp, Htruthy.
  - intros [Hp|Hp]; unfold prompt, routePrompt, or_else; by rewrite Hp.
  - by intros result ->.
  - intros e He. rewrite He.
    destruct (thrown_with_prompt env prompt options w e (routePrompt_truthy product req) He)
      as [Hstatus Hmessage].
    unfold or_else. by rewrite Hstatus, Hmessage.
Qed.

Lemma route_runs_wrapper_witness :
  fst (generateProductImageRoute api_echo
         (fun _ => Found {| product_name := "Red backpack"; product_description := "20 l" |})
         {| req_productId := Some "64b7f0c2a1d3e4f5a6b7c8d9"%string;
            req_prompt := Some ""%string; req_options := None |} started)
  = Some {| status := 200;
            body := ImageGenerated "Image generated successfully with enhanced AI utils"
              "https://images.example/Professional product photography of Red backpack, 20 l, white background, high quality, e-commerce style, studio lighting, commercial photo"
              "Professional product photography of Red backpack, 20 l, white background, high quality, e-commerce style, studio lighting, commercial photo"
              None (Some "64b7f0c2a1d3e4f5a6b7c8d9"%string)
              {| meta_fromCache := false; meta_attempts := 1;
                 meta_model := "dall-e-3"; meta_size := "1024x1024";
                 meta_quality := "standard"; meta_style := "vivid" |} |}.
Proof.
  destruct (route_runs_wrapper api_echo
              (fun _ => Found {| product_name := "Red backpack";
                                 product_description := "20 l" |})
              {| req_productId := Some "64b7f0c2a1d3e4f5a6b7c8d9"%string;
                 req_prompt := Some ""%string; req_options := None |} started
              {| product_name := "Red backpack"; product_description := "20 l" |}
              eq_refl eq_refl) as (_ & _ & _ & Hok & _).
  refine (Hok {| imageUrl := _; revisedPrompt := None; fromCache := false; attempts := 1 |} _).
  vm_compute. reflexivity.
Defined.

(** Asking twice for the image of a product costs one request to the API:
    when a request to the route has been answered with status 200 and
    caching is on, the same request made again while the cached entry is
    within its TTL (an hour from the end of the first answer, if that one
    was fresh) is answered with the same image, marked fromCache with
    attempts 0, and nothing is sent to the API; this, provided the product
    is found again and the prompt comes out the same: the request has a
    prompt of its own, or the name and the description of the product have
    not changed. *)
Theorem route_repeated_within_ttl env findById findById' req w product product' r1 :
  configured env ->
  findById (req_productId req) = Found product ->
  findById' (req_productId req) = Found product' ->
  routePrompt product' req = routePrompt product req ->
  useCache_of (routeOptions req) = true ->
  let first := generateProductImageRoute env findById req w in
  fst first = Some r1 -> status r1 = 200 ->
  exists e url prompt revised pid meta,
    body r1 = ImageGenerated "Image generated successfully with enhanced AI utils"
                url prompt revised pid meta /\
    imageCache (snd first) !! createCacheKey prompt (routeOptions req) = Some e /\
    (meta_fromCache meta = false -> insertedAt e = now (snd first)) /\
    forall d, now (snd first) + d <= insertedAt e + stdTTL * 1000 ->
      let second := generateProductImageRoute env findById' req (elapse d (snd first)) in
      fst second
      = Some {| status := 200;
                body := ImageGenerated "Image generated successfully with enhanced AI utils"
                          url prompt revised pid
                          {| meta_fromCache := true; meta_attempts := 0;
                             meta_model := meta_model meta; meta_size := meta_size meta;
                             meta_quality := meta_quality meta;
                             meta_style := meta_style meta |} |} /\
      attemptsMade (elapse d (snd first)) (snd second) = 0.
Proof.
  intros Hk Hfind Hfind' Hsame Hu first.
  destruct (route_runs_wrapper env findById req w product Hk Hfind)
    as (_ & _ & Hworld & Hok & Hfail).
  fold first in Hworld, Hok, Hfail.
  set (prompt := routePrompt product req) in *.
  set (options := routeOptions req) in *.
  intros Hfirst Hstatus.
  destruct (fst (generateProductImage env prompt options w)) as [c|] eqn:Hc.
  2:{ revert Hfirst. unfold first. rewrite route_unfold. unfold configured in Hk.
      rewrite Hk, Hfind. cbn [negb]. cbv zeta. fold prompt options. by rewrite Hc. }
  destruct c as [result|e]; [|rewrite (Hfail e eq_refl) in Hfirst; by injection Hfirst as <-].
  rewrite (Hok result eq_refl) in Hfirst. injection Hfirst as <-. cbn [body].
  destruct (returned_is_cached env prompt options w result Hu Hc)
    as (e & He & Hhit & _ & Hfresh).
  rewrite <- Hworld in He, Hfresh.
  exists e. do 5 eexists. split; [reflexivity|]. split; [exact He|]. split; [exact Hfresh|].
  intros d Hd.
  set (second := generateProductImageRoute env findById' req (elapse d (snd first))).
  assert (NodeCache_get (imageCache (elapse d (snd first))) (now (elapse d (snd first)))
            (createCacheKey prompt options) = Some (payload e)) as Hget.
  { apply NodeCache_get_live; [by rewrite elapse_imageCache|].
    unfold expired. rewrite elapse_now.
    by destruct (Z.ltb_spec (insertedAt e + stdTTL * 1000) (now (snd first) + d)); [lia|]. }
  destruct (route_runs_wrapper env findById' req (elapse d (snd first)) product' Hk Hfind')
    as (_ & _ & Hworld' & Hok' & _).
  fold second in Hworld', Hok'. rewrite Hsame in Hworld', Hok'.
  fold prompt options in Hworld', Hok'.
  pose proof (generateProductImage_hit env prompt options (elapse d (snd first)) (payload e)
                (routePrompt_truthy product req) Hk Hu Hget) as Hrun.
  rewrite Hrun in Hworld', Hok'. cbn [fst snd] in Hworld', Hok'.
  split.
  - rewrite (Hok' _ eq_refl). cbn. unfold hit in Hhit. injection Hhit as -> ->. reflexivity.
  - rewrite Hworld'. unfold attemptsMade. rewrite looked_apiCalls. lia.
Qed.

Lemma route_repeated_within_ttl_witness :
  let findById := fun _ : option string =>
    Found {| product_name := "Red backpack"; product_description := "20 l" |} in
  let req := {| req_productId := Some "64b7f0c2a1d3e4f5a6b7c8d9"%string;
                req_prompt := Some "Studio photo of a red backpack"%string;
                req_options := None |} in
  let first := generateProductImageRoute api_up findById req started in
  let second := generateProductImageRoute api_up findById req (elapse 3600000 (snd first)) in
  attemptsMade (elapse 3600000 (snd first)) (snd second) = 0.
Proof.
  intros findById req first second.
  assert (exists r1, fst first = Some r1 /\ status r1 = 200 /\
            exists url prompt revised pid meta,
              body r1 = ImageGenerated "Image generated successfully with enhanced AI utils"
                          url prompt revised pid meta /\ meta_fromCache meta = false)
    as (r1 & Hfirst & Hstatus & Hbody).
  { eexists. split; [vm_compute; reflexivity|]. split; [reflexivity|].
    do 5 eexists. split; reflexivity. }
  destruct (route_repeated_within_ttl api_up findById findById req started _ _ r1
              eq_refl eq_refl eq_refl eq_refl eq_refl Hfirst Hstatus)
    as (e & url & prompt & revised & pid & meta & Hr1 & _ & Hfresh & Hagain).
  destruct Hbody as (url' & prompt' & revised' & pid' & meta' & Hr1' & Hmeta).
  rewrite Hr1 in Hr1'. injection Hr1' as -> -> -> -> ->.
  apply (Hagain 3600000). rewrite (Hfresh Hmeta). unfold stdTTL. lia.
Defined.

(** * The orders controller *)

Lemma queried_app {A : Arithmetic} (log qs : list (DbQuery A)) : queried log (log ++ qs) = qs.
Proof. unfold queried. apply drop_app_length. Qed.

Lemma queried_app2 {A : Arithmetic} (log qs qs' : list (DbQuery A)) :
  queried log ((log ++ qs) ++ qs') = qs ++ qs'.
Proof. rewrite <- app_assoc. apply queried_app. Qed.

(** The loop over the products: it only looks products up, one after the
    other; it ends with a total exactly when all of them are found, the
    total being the sum of price times quantity; it ends on a missing
    product at the first one that is not found, the later ones not being
    looked up. *)
Lemma priceProducts_spec {A : Arithmetic} (db : Database A) products :
  forall total log,
    let r := fst (priceProducts db products total log) in
    let log' := snd (priceProducts db products total log) in
    match r with
    | Total t =>
      exists prices, allFound db log products prices /\
        t = orderTotal prices products total /\
        log' = log ++ lookups products
    | Missing id =>
      exists (k : nat) p prices,
        products !! k = Some p /\ item_productId p = id /\
        allFound db log (take k products) prices /\
        answer_product db (log ++ lookups (take k products)) id = NotFound /\
        log' = log ++ lookups (take (S k) products)
    | Raised error =>
      exists (k : nat) p prices,
        products !! k = Some p /\
        allFound db log (take k products) prices /\
        answer_product db (log ++ lookups (take k products)) (item_productId p) = Fails error /\
        log' = log ++ lookups (take (S k) products)
    end.
Proof.
  induction products as [|p products IH]; intros total log; cbn [priceProducts].
  - cbn. exists []. by rewrite app_nil_r.
  - destruct (answer_product db log (item_productId p)) as [price| |error] eqn:Hp.
    + specialize (IH (num_add A total (num_mul A price (item_quantity p)))
                     (log ++ [ProductFindById (item_productId p)])).
      cbv zeta in IH |- *.
      destruct (fst (priceProducts db products _ _)) as [t|id|error].
      * destruct IH as (prices & Hall & -> & ->). exists (price :: prices).
        split; [by split|]. split; [done|]. by rewrite <- app_assoc.
      * destruct IH as (k & p' & prices & Hk & Hid & Hall & Hnone & ->).
        exists (S k), p', (price :: prices). cbn [take lookups fmap list_fmap].
        split; [done|]. split; [done|]. split; [by split|].
        rewrite <- !app_assoc in *. by split.
      * destruct IH as (k & p' & prices & Hk & Hall & Hfail & ->).
        exists (S k), p', (price :: prices). cbn [take lookups fmap list_fmap].
        split; [done|]. split; [by split|].
        rewrite <- !app_assoc in *. by split.
    + cbn. exists 0%nat, p, []. cbn. rewrite app_nil_r. by repeat split.
    + cbn. exists 0%nat, p, []. cbn. rewrite app_nil_r. by repeat split.
Qed.

Lemma priceProducts_total {A : Arithmetic} (db : Database A) products :
  forall prices total log,
    allFound db log products prices ->
    priceProducts db products total log
    = (Total (orderTotal prices products total), log ++ lookups products).
Proof.
  induction products as [|p products IH]; intros [|price prices] total log Hall; try done.
  - cbn. by rewrite app_nil_r.
  - destruct Hall as [Hp Hall]. cbn [priceProducts]. rewrite Hp.
    rewrite (IH prices _ _ Hall). cbn [lookups fmap list_fmap]. by rewrite <- app_assoc.
Qed.

Lemma priceProducts_missing {A : Arithmetic} (db : Database A) products :
  forall (k : nat) p prices total log,
    products !! k = Some p ->
    allFound db log (take k products) prices ->
    answer_product db (log ++ lookups (take k products)) (item_productId p) = NotFound ->
    priceProducts db products total log
    = (Missing (item_productId p), log ++ lookups (take (S k) products)).
Proof.
  induction products as [|p0 products IH]; intros k p prices total log Hk Hall Hnone;
    [done|].
  destruct k as [|k].
  - injection Hk as ->. cbn in Hnone. rewrite app_nil_r in Hnone.
    cbn [priceProducts]. by rewrite Hnone.
  - cbn [take] in Hall, Hnone. destruct prices as [|price prices]; [done|].
    destruct Hall as [Hp Hall]. cbn [priceProducts]. rewrite Hp.
    cbn [lookups fmap list_fmap] in Hnone. rewrite cons_middle, app_assoc in Hnone.
    rewrite (IH k p prices _ _ Hk Hall Hnone).
    cbn [take lookups fmap list_fmap]. by rewrite <- app_assoc.
Qed.

Lemma lookups_no_write {A : Arithmetic} (products : list (OrderItem A)) :
  Forall (fun q => is_write q = false) (lookups products).
Proof. unfold lookups. apply Forall_fmap. by apply Forall_true. Qed.



(** [createOrder] turns down an order for an unknown user with status 400
    and 'User not found', without looking up any product; and an order one
    of whose products is unknown with status 400 and
    'Product <id> not found', naming the first such product of the order
    and not looking up the ones after it.  Nothing is written in either
    case. *)
Theorem createOrder_rejects_unknown {A : Arithmetic} (db : Database A) body log :
  let userId := create_userId body in
  let products := create_products body in
  (answer_user db log userId = NotFound ->
   createOrder db body log
   = (Respond {| reply_status := 400; reply_body := ErrorJson "User not found" |},
      log ++ [UserFindById userId])) /\
  (forall found (k : nat) p prices,
     answer_user db log userId = Found found ->
     products !! k = Some p ->
     allFound db (log ++ [UserFindById userId]) (take k products) prices ->
     answer_product db ((log ++ [UserFindById userId]) ++ lookups (take k products))
       (item_productId p) = NotFound ->
     createOrder db body log
     = (Respond {| reply_status := 400;
                   reply_body :=
                     ErrorJson ("Product " ++ item_productId p ++ " not found")%string |},
        (log ++ [UserFindById userId]) ++ lookups (take (S k) products)) /\
     Forall (fun q => is_write q = false)
       (queried log ((log ++ [UserFindById userId]) ++ lookups (take (S k) products)))).
Proof.
  intros userId products. split.
  - intros Huser. unfold createOrder. fold userId. by rewrite Huser.
  - intros found k p prices Huser Hk Hall Hnone. split.
    + unfold createOrder. fold userId products. rewrite Huser.
      by rewrite (priceProducts_missing db products k p prices _ _ Hk Hall Hnone).
    + rewrite queried_app2. constructor; [done|]. apply lookups_no_write.
Qed.

Lemma createOrder_rejects_unknown_witness :
  createOrder shop
    {| create_userId := "u1";
       create_products := [ line "p1" 2;
                            line "p9" 1;
                            line "p2" 1 ] |} []
  = (Respond {| reply_status := 400; reply_body := ErrorJson "Product p9 not found" |},
     [UserFindById "u1"; ProductFindById "p1"; ProductFindById "p9"]).
Proof.
  destruct (createOrder_rejects_unknown shop
              {| create_userId := "u1";
                 create_products := [ line "p1" 2;
                                      line "p9" 1;
                                      line "p2" 1 ] |}
              []) as [_ Hproduct].
  destruct (Hproduct tt 1%nat (line "p9" 1) [1999]) as [Hrun _];
    [reflexivity | reflexivity | by split | reflexivity | exact Hrun].
Defined.

(** ** [updateOrder] *)

Lemma applyUpdate_spec {A : Arithmetic} (db : Database A) id update log :
  snd (applyUpdate db id update log) = log ++ [OrderFindByIdAndUpdate id update] /\
  (reply_status (answered_by (fst (applyUpdate db id update log))) = 200 \/
   reply_status (answered_by (fst (applyUpdate db id update log))) = 400 \/
   reply_status (answered_by (fst (applyUpdate db id update log))) = 404 \/
   reply_status (answered_by (fst (applyUpdate db id update log))) = 500).
Proof.
  unfold applyUpdate. destruct (answer_update db log id update); cbn [fst snd answered_by].
  - split; [done|]. cbn. auto.
  - split; [done|]. cbn. auto.
  - split; [done|]. unfold errorHandler. repeat case_match; cbn; auto.
Qed.

(** [updateOrder] never looks a user up: the userId of an update is not
    checked.  When the update has products, they are looked up as in
    [createOrder]: if all are found, the update made carries the total at
    the prices found; if one is missing or its query fails, no update is
    made.  When the update has no products, the one query is the update,
    made of the body as it came: the total is not recomputed. *)
Theorem updateOrder_checks_products_only {A : Arithmetic} (db : Database A) id body log :
  let h := fst (updateOrder db id body log) in
  let log' := snd (updateOrder db id body log) in
  Forall (fun q => forall u, q <> UserFindById u) (queried log log') /\
  (update_products body = None ->
   queried log log' = [OrderFindByIdAndUpdate id body]) /\
  (forall products prices,
     update_products body = Some products ->
     allFound db log products prices ->
     queried log log'
     = lookups products
         ++ [OrderFindByIdAndUpdate id
               {| update_userId := update_userId body;
                  update_products := Some products;
                  update_total := Some (orderTotal prices products (num_zero A)) |}]) /\
  (forall products,
     update_products body = Some products ->
     (forall prices, ~ allFound db log products prices) ->
     Forall (fun q => is_write q = false) (queried log log') /\
     reply_status (answered_by h) <> 200).
Proof.
  intros h log'. unfold h, log', updateOrder.
  destruct (update_products body) as [products|] eqn:Hproducts.
  2:{ destruct (applyUpdate_spec db id body log) as [-> _]. rewrite queried_app.
      split; [by repeat constructor|]. split; [done|]. split; by intros. }
  pose proof (priceProducts_spec db products (num_zero A) log) as Hspec.
  cbv zeta in Hspec.
  assert (Forall (fun q : DbQuery A => forall u, q <> UserFindById u) (lookups products))
    as Hlookups.
  { unfold lookups. apply Forall_fmap. by apply Forall_true. }
  assert (forall n, Forall (fun q : DbQuery A => forall u, q <> UserFindById u)
                      (lookups (take n products))) as Hlookups'.
  { intros n. unfold lookups. apply Forall_fmap. by apply Forall_true. }
  destruct (priceProducts db products (num_zero A) log) as [[t|pid|error] log1] eqn:Hprice;
    cbn [fst snd] in Hspec.
  - destruct Hspec as (prices & Hall & -> & ->).
    destruct (applyUpdate_spec db id
                {| update_userId := update_userId body;
                   update_products := Some products;
                   update_total := Some (orderTotal prices products (num_zero A)) |}
                (log ++ lookups products)) as [-> _].
    rewrite queried_app2. split; [|split; [done|split]].
    + apply Forall_app. split; [done | by repeat constructor].
    + intros products' prices' [= <-] Hall'.
      rewrite (priceProducts_total db products prices' _ _ Hall') in Hprice.
      injection Hprice as ->. done.
    + intros products' [= <-] Hnone. by destruct (Hnone prices).
  - destruct Hspec as (k & p & prices & Hk & Hid & Hall & Hnone & ->).
    cbn [fst snd]. rewrite queried_app. split; [done|]. split; [done|]. split.
    + intros products' prices' [= <-] Hall'.
      by rewrite (priceProducts_total db products prices' _ _ Hall') in Hprice.
    + intros products' [= <-] _. split; [apply lookups_no_write | done].
  - destruct Hspec as (k & p & prices & Hk & Hall & Hfail & ->).
    cbn [fst snd]. rewrite queried_app. split; [done|]. split; [done|]. split.
    + intros products' prices' [= <-] Hall'.
      by rewrite (priceProducts_total db products prices' _ _ Hall') in Hprice.
    + intros products' [= <-] _. split; [apply lookups_no_write|].
      unfold answered_by, errorHandler. repeat case_match; cbn; lia.
Qed.

Lemma updateOrder_checks_products_only_witness :
  queried [] (snd (updateOrder shop "o1"
                     {| update_userId := Some "nobody"%string;
                        update_products :=
                          Some [ line "p2" 3 ];
                        update_total := None |} []))
  = [ ProductFindById "p2";
      OrderFindByIdAndUpdate "o1"
        {| update_userId := Some "nobody"%string;
           update_products := Some [ line "p2" 3 ];
           update_total := Some 1500 |} ].
Proof.
  destruct (updateOrder_checks_products_only shop "o1"
              {| update_userId := Some "nobody"%string;
                 update_products :=
                   Some [ line "p2" 3 ];
                 update_total := None |} []) as (_ & _ & Hpriced & _).
  exact (Hpriced [line "p2" 3] [500] eq_refl (conj eq_refl I)).
Defined.

(** ** The answers of the orders handlers *)

Lemma errorHandler_status {A : Arithmetic} (error : DbError) :
  (reply_status (errorHandler (A := A) error) = 400 \/
   reply_status (errorHandler (A := A) error) = 500) /\
  (reply_status (errorHandler (A := A) error) = 500 ->
   reply_body (errorHandler (A := A) error) = ErrorJson "Internal server error").
Proof.
  unfold errorHandler. repeat case_match; cbn; split; auto; intros [=].
Qed.

Ltac orders_status Herr :=
  cbn [fst answered_by reply_status];
  first [ by auto 6
        | match goal with
          | |- context [errorHandler ?e] =>
            let Hstatus := fresh "Hstatus" in
            destruct (Herr e) as [Hstatus|Hstatus]; rewrite Hstatus; by auto 6
          end ].

(** Whatever the database does, the handlers of the orders answer with a
    status of their own short list (400 and 500 being those of the error
    handler when a query fails), and an answer with status 500 never says
    more than 'Internal server error': nothing of the error is disclosed. *)
Theorem orders_answers {A : Arithmetic} (db : Database A) log :
  (forall body, let r := answered_by (fst (createOrder db body log)) in
     (reply_status r = 201 \/ reply_status r = 400 \/ reply_status r = 500) /\
     (reply_status r = 500 -> reply_body r = ErrorJson "Internal server error")) /\
  (forall id body, let r := answered_by (fst (updateOrder db id body log)) in
     (reply_status r = 200 \/ reply_status r = 400 \/ reply_status r = 404 \/
      reply_status r = 500) /\
     (reply_status r = 500 -> reply_body r = ErrorJson "Internal server error")) /\
  (forall id, let r := answered_by (fst (deleteOrder db id log)) in
     (reply_status r = 204 \/ reply_status r = 400 \/ reply_status r = 404 \/
      reply_status r = 500) /\
     (reply_status r = 204 <-> exists order, answer_delete db log id = Found order) /\
     (reply_status r = 500 -> reply_body r = ErrorJson "Internal server error")) /\
  (forall id, let r := answered_by (fst (getOrderTemplate db id log)) in
     (reply_status r = 200 \/ reply_status r = 400 \/ reply_status r = 404 \/
      reply_status r = 500) /\
     (forall order, answer_order db log id = Found order ->
        reply_body r = TemplateJson (order_userId order) (order_products order)) /\
     (reply_status r = 500 -> reply_body r = ErrorJson "Internal server error")).
Proof.
  assert (forall h : Handled A,
            (forall reply, h = Respond reply -> reply_status reply <> 500) ->
            reply_status (answered_by h) = 500 ->
            reply_body (answered_by h) = ErrorJson "Internal server error") as Hleak.
  { intros [reply|error] Hown; cbn [answered_by].
    - intros H500. by destruct (Hown reply eq_refl).
    - apply errorHandler_status. }
  assert (forall error : DbError,
            reply_status (errorHandler (A := A) error) = 400 \/
            reply_status (errorHandler (A := A) error) = 500) as Herr
    by (intros error; apply errorHandler_status).
  split; [|split; [|split]].
  - intros body r. unfold r. split.
    + unfold createOrder. repeat case_match; orders_status Herr.
    + apply Hleak. intros reply. unfold createOrder.
      repeat case_match; cbn [fst]; intros Heq; simplify_eq; cbn; lia.
  - intros id body r. unfold r. split.
    + unfold updateOrder, applyUpdate. repeat case_match; orders_status Herr.
    + apply Hleak. intros reply. unfold updateOrder, applyUpdate.
      repeat case_match; cbn [fst]; intros Heq; simplify_eq; cbn; lia.
  - intros id r. unfold r, deleteOrder.
    destruct (answer_delete db log id) as [order| |error];
      cbn [fst answered_by reply_status].
    + split; [auto|]. split; [|done]. split; [eauto | done].
    + split; [auto|]. split; [|done]. split; [done | by intros [? ?]].
    + split; [destruct (Herr error); auto|]. split; [|apply errorHandler_status].
      split; [|by intros [? ?]]. intros H204. destruct (Herr error); lia.
  - intros id r. unfold r, getOrderTemplate.
    destruct (answer_order db log id) as [order| |error];
      cbn [fst answered_by reply_status].
    + split; [auto|]. split; [|done]. intros order' [= <-]. cbn [reply_body]. f_equal.
      induction (order_products order) as [|[pid q] ps IH]; [done|].
      cbn [fmap list_fmap]. f_equal. apply IH.
    + split; [auto|]. split; [by intros|done].
    + split; [destruct (Herr error); auto|]. split; [by intros|apply errorHandler_status].
Qed.

Lemma orders_answers_witness :
  reply_status (answered_by (fst (deleteOrder shop "o1" []))) = 404 /\
  (reply_status (answered_by (fst (deleteOrder shop "o1" []))) = 204 <->
   exists order, answer_delete shop [] "o1"%string = Found order).
Proof.
  split; [reflexivity|].
  destruct (orders_answers shop []) as (_ & _ & Hdelete & _).
  exact (proj1 (proj2 (Hdelete "o1"%string))).
Defined.

(** ** Entries of other keys *)

Lemma generateProductImage_other_keys env prompt options w k :
  createCacheKey prompt options <> k ->
  imageCache (snd (generateProductImage env prompt options w)) !! k = imageCache w !! k.
Proof.
  intros Hk.
  destruct (generateProductImage_cache env prompt options w) as [-> _].
  unfold written_call. repeat case_match; try done. by rewrite lookup_insert_ne.
Qed.

(** Calls of the wrapper leave the entries of other keys alone: whatever
    the calls of a session do, a read of the store under a key that is the
    key of none of them gives, at any time, what it gave before them. *)
Theorem session_keeps_other_entries env calls w k t :
  Forall (fun c => createCacheKey (snd (fst c)) (snd c) <> k) calls ->
  NodeCache_get (imageCache (session env calls w)) t k = NodeCache_get (imageCache w) t k.
Proof.
  intros Hcalls. unfold NodeCache_get.
  enough (imageCache (session env calls w) !! k = imageCache w !! k) as -> by done.
  revert w. induction Hcalls as [|[[d prompt] options] calls Hk _ IH]; intros w; [done|].
  cbn [session]. rewrite IH. cbn [fst snd] in Hk.
  by rewrite generateProductImage_other_keys.
Qed.

Lemma session_keeps_other_entries_witness :
  NodeCache_get
    (imageCache (session api_up [(0, "Blue kettle"%string, no_options)] stale))
    1700003000000 "image_dall-e-3_1024x1024_standard_vivid_red_backpack"%string
  = Some old_image.
Proof.
  rewrite (session_keeps_other_entries api_up [(0, "Blue kettle"%string, no_options)]
             stale "image_dall-e-3_1024x1024_standard_vivid_red_backpack"%string
             1700003000000).
  - reflexivity.
  - constructor; [|constructor]. vm_compute. discriminate.
Defined.

(** ** The test route *)

Lemma substring_0_short n s :
  (String.length s <= n)%nat -> substring 0 n s = s.
Proof.
  unfold substring. revert n. induction s as [|c s IH]; intros [|n] Hn; cbn in *;
    try done; try lia.
  f_equal. apply IH. lia.
Qed.

Lemma substring_0_prefix n s :
  exists rest, s = (substring 0 n s ++ rest)%string /\
               String.length (substring 0 n s) = Nat.min n (String.length s).
Proof.
  unfold substring. revert n. induction s as [|c s IH]; intros [|n]; cbn.
  - by exists ""%string.
  - by exists ""%string.
  - by exists (String c s).
  - destruct (IH n) as (rest & Hrest & Hlen). exists rest.
    split; [|by rewrite Hlen].
    change (String c (String.substring 0 n s) +:+ rest)
      with (String c (String.substring 0 n s +:+ rest)).
    by rewrite <- Hrest.
Qed.

Lemma dots_not_found s : (s ++ "...")%string <> "not found"%string.
Proof.
  do 10 (destruct s as [|? s]; cbn [String.append]; try by intros [=]).
Qed.

(** The test route tells whether the credential is set, and when it is
    set it gives away its beginning: the answer carries the first ten
    characters of the credential (the whole of it when it has ten or
    fewer) followed by three dots, and 'not found' only when it is not
    set. *)
Theorem testRoute_discloses_prefix env :
  (report_hasApiKey (testRoute env) = true <-> configured env) /\
  report_isWorking (testRoute env) = report_hasApiKey (testRoute env) /\
  (report_apiKeyPrefix (testRoute env) = "not found"%string <-> ~ configured env) /\
  (forall key, OPENAI_API_KEY env = Some key -> configured env ->
     exists shown rest,
       report_apiKeyPrefix (testRoute env) = (shown ++ "...")%string /\
       key = (shown ++ rest)%string /\
       String.length shown = Nat.min 10 (String.length key) /\
       ((String.length key <= 10)%nat -> shown = key)).
Proof.
  unfold testRoute, configured. cbn [report_hasApiKey report_isWorking report_apiKeyPrefix].
  split; [done|]. split; [done|]. split.
  - destruct (OPENAI_API_KEY env) as [key|]; cbn [default from_option id];
      [|split; [intros _ Hf; vm_compute in Hf; discriminate Hf | done]].
    destruct (truthy key);
      [|split; [intros _ Hf; vm_compute in Hf; discriminate Hf | done]].
    split.
    + intros Hdots. by destruct (dots_not_found _ Hdots).
    + by intros [].
  - intros key -> Hkey. cbn [default from_option id] in Hkey. rewrite Hkey.
    destruct (substring_0_prefix 10 key) as (rest & Hrest & Hlen).
    exists (substring 0 10 key), rest. split; [done|]. split; [done|]. split; [done|].
    apply substring_0_short.
Qed.

Lemma testRoute_discloses_prefix_witness :
  exists shown rest,
    report_apiKeyPrefix (testRoute api_up) = (shown ++ "...")%string /\
    "sk-test"%string = (shown ++ rest)%string /\
    String.length shown = Nat.min 10 (String.length "sk-test") /\
    ((String.length "sk-test" <= 10)%nat -> shown = "sk-test"%string).
Proof.
  destruct (testRoute_discloses_prefix api_up) as (_ & _ & _ & Hshown).
  exact (Hshown "sk-test"%string eq_refl eq_refl).
Defined.

(** ** The toJSON transform *)

(** The object made by the transform has no [_id] and no [__v]; its [id]
    is the [_id] the object had; every other property is as it was.  The
    transform is not idempotent: applied to its own result, it removes
    the [id]. *)
Theorem transform_renames_id {V : Type} (ret : gmap string V) :
  transform ret !! "_id"%string = None /\
  transform ret !! "__v"%string = None /\
  transform ret !! "id"%string = ret !! "_id"%string /\
  (forall k, k <> "id"%string -> k <> "_id"%string -> k <> "__v"%string ->
     transform ret !! k = ret !! k) /\
  transform (transform ret) !! "id"%string = None.
Proof.
  assert (forall ret : gmap string V,
            transform ret !! "_id"%string = None /\
            transform ret !! "id"%string = ret !! "_id"%string) as Hid.
  { intros o. unfold transform. split.
    - rewrite lookup_delete_ne by done. by rewrite lookup_delete_eq.
    - rewrite !lookup_delete_ne by done.
      destruct (o !! "_id"%string) as [v|] eqn:Ho.
      + by rewrite lookup_insert_eq.
      + by rewrite lookup_delete_eq. }
  split; [apply Hid|]. split; [|split; [apply Hid|split]].
  - unfold transform. by rewrite lookup_delete_eq.
  - intros k Hk1 Hk2 Hk3. unfold transform.
    rewrite !lookup_delete_ne by done.
    destruct (ret !! "_id"%string).
    + by rewrite lookup_insert_ne.
    + by rewrite lookup_delete_ne.
  - destruct (Hid (transform ret)) as [_ ->]. apply Hid.
Qed.

Lemma transform_renames_id_witness :
  transform (V := Z) {[ "_id"%string := 7; "name"%string := 1; "__v"%string := 0 ]}
    !! "name"%string = Some 1.
Proof.
  destruct (transform_renames_id (V := Z)
              {[ "_id"%string := 7; "name"%string := 1; "__v"%string := 0 ]})
    as (_ & _ & _ & Hother & _).
  rewrite Hother; [reflexivity | done | done | done].
Defined.

(** ** Keys and requests, on an example *)

Lemma same_key_same_request_witness :
  requestBody "Red Shoe!" no_options = requestBody "Red Shoe!" (with_maxRetries 5).
Proof.
  apply (proj2 (same_key_same_request "Red Shoe!" "red shoe?" no_options (with_maxRetries 5))).
  reflexivity.
Defined.
